(** * Number_150: a genetic algorithm converging on a target integer

    Shallow embedding of [utilities.py] and [number_evolver.py].

    - Python [int] is [Z]; a Python list is a Rocq [list], read and written
      by index through [getitem] / [setitem], which raise [IndexError]
      where Python does.
    - Exceptions are the [Err] branch of the [result] monad.
    - [self.__best] starts as [math.inf] and is an [int] afterwards: it is
      a [pynum].
    - The [random] module is an explicit entropy source: every call of
      [random.randint] and every round of [random.shuffle] consumes an
      arbitrary integer, reduced into the range the call asks for.
    - [print] in [__init__] is kept for what it can raise: CPython
      refuses to print an [int] of more than 4300 decimal digits.
    - Inside [__evolve], [print] and [time.sleep] do not touch the
      evolver's state; they and the conversion of an [int] to [float]
      in [x - math.inf] can only raise, and are left out: what is stated
      of [__evolve] is stated of the generations that return. The
      [sleep] argument is only read by [time.sleep] and is left out with
      it.
    - [math.log] and the float arithmetic of [calc_level] are taken
      exact; a statement that depends on their value carries the
      condition under which it holds of the float computation too. *)

From Stdlib Require Import ZArith QArith Qabs String Ascii Lia Lqa.
From stdpp Require Import base list relations sorting.

Local Open Scope Z_scope.

(** ** Exceptions *)

Inductive exn : Type :=
| ValueError
| IndexError
| ZeroDivisionError.

Inductive result (A : Type) : Type :=
| Ok (a : A)
| Err (e : exn).

Arguments Ok {A} a.
Arguments Err {A} e.

Definition rbind {A B : Type} (m : result A) (k : A -> result B) : result B :=
  match m with
  | Ok a => k a
  | Err e => Err e
  end.

Notation "'let*' x := m 'in' k" := (rbind m (fun x => k))
  (at level 10, x pattern, m at level 100, k at level 200).

Fixpoint mapM {A B : Type} (f : A -> result B) (l : list A) : result (list B) :=
  match l with
  | [] => Ok []
  | a :: l' =>
      let* b := f a in
      let* bs := mapM f l' in
      Ok (b :: bs)
  end.

(** ** Python lists *)

Section PyList.
Context {A : Type}.

(** [l[i]] positions: a negative index counts from the end. *)
Definition norm_index (l : list A) (i : Z) : Z :=
  if i <? 0 then i + Z.of_nat (length l) else i.

Definition in_range (l : list A) (i : Z) : bool :=
  (0 <=? norm_index l i) && (norm_index l i <? Z.of_nat (length l)).

(** [l[i]] *)
Definition getitem (l : list A) (i : Z) : result A :=
  if in_range l i then
    match l !! Z.to_nat (norm_index l i) with
    | Some a => Ok a
    | None => Err IndexError
    end
  else Err IndexError.

(** [l[i] = a] *)
Definition setitem (l : list A) (i : Z) (a : A) : result (list A) :=
  if in_range l i then Ok (<[Z.to_nat (norm_index l i) := a]> l)
  else Err IndexError.

(** [l[:k]] *)
Definition slice_to (l : list A) (k : Z) : list A :=
  if k <? 0 then take (Z.to_nat (Z.of_nat (length l) + k)) l
  else take (Z.to_nat k) l.
End PyList.

(** ** utilities.py *)

Module util.

(** [reduce(lambda prev, curr: (prev[0] + 1, prev[1] + (curr << prev[0])),
    n, (0, 0))[1]] *)
Definition bin_to_dec (n : list Z) : Z :=
  snd (fold_left
         (fun (prev : Z * Z) (curr : Z) =>
            (fst prev + 1, snd prev + Z.shiftl curr (fst prev)))
         n (0, 0)).

(** Digits of a positive number, most significant first, in front of
    [acc]. *)
Fixpoint pos_digits (p : positive) (acc : string) : string :=
  match p with
  | xH => String "1" acc
  | xO p' => pos_digits p' (String "0" acc)
  | xI p' => pos_digits p' (String "1" acc)
  end.

(** Python's builtin [bin]. *)
Definition bin (n : Z) : string :=
  match n with
  | Z0 => "0b0"
  | Zpos p => String "0" (String "b" (pos_digits p EmptyString))
  | Zneg p =>
      String "-" (String "0" (String "b" (pos_digits p EmptyString)))
  end.

(** [s.replace(old, new)] for a non-empty [old]: occurrences are found
    left to right and do not overlap; [skip] counts the characters of
    a found occurrence still to be dropped. *)
Fixpoint replace_from (old new : string) (skip : nat) (s : string) : string :=
  match s with
  | EmptyString => EmptyString
  | String c s' =>
      match skip with
      | S k => replace_from old new k s'
      | O =>
          if String.prefix old s
          then String.append new
                 (replace_from old new (String.length old - 1) s')
          else String c (replace_from old new 0 s')
      end
  end.

Definition replace (s old new : string) : string :=
  replace_from old new 0 s.

Fixpoint fill (k : nat) (c : ascii) : string :=
  match k with
  | O => EmptyString
  | S k' => String c (fill k' c)
  end.

(** [s.ljust(width, fillchar)]: padding goes to the right of [s]. *)
Definition ljust (s : string) (width : Z) (fillchar : ascii) : string :=
  String.append s (fill (Z.to_nat width - String.length s) fillchar).

(** [int(c)] for a one-character string. *)
Definition int_of_char (c : ascii) : result Z :=
  let k := Z.of_nat (nat_of_ascii c) in
  if (48 <=? k) && (k <=? 57) then Ok (k - 48) else Err ValueError.

(** [[int(n) for n in bin(n).replace('0b', '').ljust(places, '0')]] *)
Definition dec_to_bin (n : Z) (places : Z) : result (list Z) :=
  mapM int_of_char
    (list_ascii_of_string
       (ljust (replace (bin n) "0b" EmptyString) places "0")).

Local Open Scope Q_scope.

(** [((max_num - n) / max_num) * valid_range + draw_range[0]] with
    [/] true division; the quotient is kept exact. *)
Definition calc_level (n max_num : Z) (draw_range : Z * Z) : result Q :=
  let valid_range := (snd draw_range - fst draw_range)%Z in
  if (max_num =? 0)%Z then Err ZeroDivisionError
  else Ok (((inject_Z (max_num - n) / inject_Z max_num)
            * inject_Z valid_range + inject_Z (fst draw_range))).

End util.

(** ** The [random] module *)

Module random.

(** [random.randint(a, b)]: an integer of [[a, b]], chosen by the
    entropy [e]; an empty range raises. *)
Definition randint (a b : Z) (e : Z) : result Z :=
  if a <=? b then Ok (a + e mod (b - a + 1)) else Err ValueError.

(** [x[i], x[j] = x[j], x[i]] on positions known to exist. *)
Definition swap {A : Type} (x : list A) (i j : nat) : list A :=
  match x !! i, x !! j with
  | Some a, Some b => <[j := a]> (<[i := b]> x)
  | _, _ => x
  end.

(** The rounds [i, i - 1, ..., 1] of [random.shuffle]: round [i] swaps
    position [i] with a position [j = randbelow(i + 1)]. *)
Fixpoint shuffle_from {A : Type} (rnd : nat -> Z) (i : nat) (x : list A)
  : list A :=
  match i with
  | O => x
  | S i' =>
      let j := Z.to_nat (rnd i mod Z.of_nat (i + 1)) in
      shuffle_from rnd i' (swap x i j)
  end.

(** [random.shuffle(x)]: [for i in reversed(range(1, len(x)))]. *)
Definition shuffle {A : Type} (rnd : nat -> Z) (x : list A) : list A :=
  shuffle_from rnd (length x - 1) x.

End random.

(** ** number_evolver.py *)

(** An [int], or the float [math.inf]. *)
Inductive pynum : Type :=
| Int (z : Z)
| Inf.

(** [abs(a - b)] for an [int] [a]. *)
Definition abs_diff (a : Z) (b : pynum) : pynum :=
  match b with
  | Int z => Int (Z.abs (a - z))
  | Inf => Inf
  end.

Definition pynum_leb (a b : pynum) : bool :=
  match a, b with
  | Int x, Int y => x <=? y
  | Int _, Inf => true
  | Inf, Int _ => false
  | Inf, Inf => true
  end.

Definition pynum_ltb (a b : pynum) : bool :=
  match a, b with
  | Int x, Int y => x <? y
  | Int _, Inf => true
  | Inf, _ => false
  end.

Definition pynum_eqb (a b : pynum) : bool :=
  match a, b with
  | Int x, Int y => x =? y
  | Inf, Inf => true
  | _, _ => false
  end.

(** [sorted(l, key=key)]: the sort is stable, so its result is the
    stable insertion sort's. *)
Fixpoint insert_by (key : Z -> pynum) (x : Z) (l : list Z) : list Z :=
  match l with
  | [] => [x]
  | y :: l' =>
      if pynum_ltb (key y) (key x) then y :: insert_by key x l' else x :: l
  end.

Definition sorted (l : list Z) (key : Z -> pynum) : list Z :=
  foldr (insert_by key) [] l.

(** [range(n)] *)
Definition range (n : Z) : list Z := map Z.of_nat (seq 0 (Z.to_nat n)).

(** [math.floor(math.log(x, 2))], the logarithm taken exact. *)
Definition floor_log2 (x : Z) : result Z :=
  if x <=? 0 then Err ValueError else Ok (Z.log2 x).

Record EvolutionIteration : Type := {
  iteration : Z;
  population : list Z;
  best_number : pynum
}.

(** The fields of [NumberEvolver] that [__init__] fixes. *)
Record Params : Type := {
  desired_number : Z;
  population_size : Z;
  max_bits : Z;
  cross_range : Z
}.

(** The fields of [NumberEvolver] that [__evolve] updates. *)
Record NumberEvolver : Type := {
  _best : pynum;
  _iteration : Z;
  _new_pop : list Z;
  _history : list EvolutionIteration;
  _population : list Z
}.

(** The entropy one mating consumes. *)
Record Draw : Type := {
  shuffle_draw : nat -> Z;
  cross_draw : Z;
  mutation_draw : Z
}.

(** CPython's default [sys.get_int_max_str_digits()]. *)
Definition int_max_str_digits : Z := 4300.

(** An [int] that [str] converts: at most [int_max_str_digits] digits. *)
Definition printable (x : Z) : bool := Z.abs x <? 10 ^ int_max_str_digits.

(** [print(..., xs)] for a list of [int]: raises [ValueError] when a
    member has too many digits to be converted. *)
Definition print_ints (xs : list Z) : result unit :=
  if forallb printable xs then Ok tt else Err ValueError.

(** [NumberEvolver.__init__]; [rnd i] is the entropy of the [i]-th member
    of the starting population. *)
Definition init (desired_number population_size max_number cross_range : Z)
  (rnd : nat -> Z) : result (Params * NumberEvolver) :=
  let desired_number := Z.min (Z.max 0 desired_number) max_number in
  let population_size := Z.max population_size 2 in
  let* lg := floor_log2 max_number in
  let max_bits := lg + 1 in
  let cross_range := Z.min (max_bits / 2) cross_range in
  let* pop := mapM (fun i => random.randint 0 max_number (rnd i))
                   (seq 0 (Z.to_nat population_size)) in
  let* _ := print_ints pop in
  Ok ({| desired_number := desired_number;
         population_size := population_size;
         max_bits := max_bits;
         cross_range := cross_range |},
      {| _best := Inf;
         _iteration := 0;
         _new_pop := [];
         _history := [];
         _population := pop |}).

Section Evolve.
Variable self : Params.

(** [for j in range(cross_range): male[cross + j], female[cross + j] =
    female[cross + j], male[cross + j]] *)
Fixpoint cross_loop (cross : Z) (js : list Z) (male female : list Z)
  : result (list Z * list Z) :=
  match js with
  | [] => Ok (male, female)
  | j :: js' =>
      let* f := getitem female (cross + j) in
      let* m := getitem male (cross + j) in
      let* male' := setitem male (cross + j) f in
      let* female' := setitem female (cross + j) m in
      cross_loop cross js' male' female'
  end.

(** [male[mutation_id] = 1 - male[mutation_id]] *)
Definition flip (bits : list Z) (mutation_id : Z) : result (list Z) :=
  let* b := getitem bits mutation_id in
  setitem bits mutation_id (1 - b).

(** One pass of the body of [for _ in range(self.__population_size)]:
    the shuffled pool and the child appended to [self.__new_pop]. *)
Definition mate (best : pynum) (d : Draw) (pool : list Z)
  : result (list Z * Z) :=
  let pool := random.shuffle (shuffle_draw d) pool in
  let* p0 := getitem pool 0 in
  let* male := util.dec_to_bin p0 (max_bits self) in
  let* p1 := getitem pool 1 in
  let* female := util.dec_to_bin p1 (max_bits self) in
  let* cross := random.randint 0 (max_bits self / 2 - 1) (cross_draw d) in
  let* (male, female) :=
    cross_loop cross (range (cross_range self)) male female in
  let* mutation_id :=
    random.randint 0 (max_bits self - 1) (mutation_draw d) in
  let* male := flip male mutation_id in
  let* female := flip female mutation_id in
  let children :=
    sorted [util.bin_to_dec male; util.bin_to_dec female]
           (fun x => abs_diff x best) in
  let* child := getitem children 0 in
  Ok (pool, child).

(** The [for] loop over the matings [idx]. *)
Fixpoint breed (best : pynum) (rnd : nat -> Draw) (idx : list nat)
  (pool new_pop : list Z) : result (list Z * list Z) :=
  match idx with
  | [] => Ok (pool, new_pop)
  | i :: idx' =>
      let* (pool', child) := mate best (rnd i) pool in
      breed best rnd idx' pool' (new_pop ++ [child])
  end.

(** [self.__best = self.__best if best_diff <= num_diff else num] *)
Definition better (best : pynum) (num : Z) : pynum :=
  let num_diff := abs_diff (desired_number self) (Int num) in
  let best_diff := abs_diff (desired_number self) best in
  if pynum_leb best_diff num_diff then best else Int num.

(** [for num in self.__population: ...] *)
Definition rescan (best : pynum) (pop : list Z) : pynum :=
  fold_left better pop best.

(** [self.__population[:max(self.__population_size // 4, 2)]] of the
    sorted population. *)
Definition breeding_pool (s : NumberEvolver) : list Z :=
  slice_to (sorted (_population s) (fun x => abs_diff x (_best s)))
           (Z.max (population_size self / 4) 2).

(** The body of the [while] loop: one generation. *)
Definition generation (rnd : nat -> Draw) (s : NumberEvolver)
  : result NumberEvolver :=
  let iteration := _iteration s + 1 in
  let pool := breeding_pool s in
  let* (_, new_pop) :=
    breed (_best s) rnd (seq 0 (Z.to_nat (population_size self)))
          pool (_new_pop s) in
  let population := new_pop in
  let best := rescan (_best s) population in
  Ok {| _best := best;
        _iteration := iteration;
        _new_pop := [];
        _history :=
          _history s ++ [ {| iteration := iteration;
                             population := population;
                             best_number := best |} ];
        _population := population |}.

(** The guard of the loop, negated: [self.__best == self.__desired_number]. *)
Definition matched (s : NumberEvolver) : bool :=
  pynum_eqb (_best s) (Int (desired_number self)).

(** [__evolve]: the [while] loop, run for as many generations as there
    is entropy for. *)
Fixpoint evolve (rnds : list (nat -> Draw)) (s : NumberEvolver)
  : result NumberEvolver :=
  match rnds with
  | [] => Ok s
  | rnd :: rnds' =>
      if matched s then Ok s
      else let* s' := generation rnd s in evolve rnds' s'
  end.

(** One turn of the loop, as a relation. *)
Inductive step : NumberEvolver -> NumberEvolver -> Prop :=
| step_generation (rnd : nat -> Draw) (s s' : NumberEvolver) :
    matched s = false ->
    generation rnd s = Ok s' ->
    step s s'.

End Evolve.

(** ** loop.py *)

Module loop.

(** A [pygame] event, as far as [__handle_events] tells events apart;
    [pos] is [event.pos]. *)
Inductive Event : Type :=
| QUIT
| MOUSEBUTTONDOWN (pos : Z * Z)
| MOUSEBUTTONUP (pos : Z * Z)
| MOUSEMOTION (pos : Z * Z)
| OTHER.

(** The fields of [Loop] that [__handle_events] updates. *)
Record Loop : Type := {
  _offset : Z * Z;
  _cursor : Z * Z;
  _dragging : bool;
  _running : bool
}.

(** The body of [for event in pygame.event.get()]; [pygame.quit()]
    does not touch the fields. *)
Definition handle_event (self : Loop) (event : Event) : Loop :=
  match event with
  | QUIT =>
      {| _offset := _offset self; _cursor := _cursor self;
         _dragging := _dragging self; _running := false |}
  | MOUSEBUTTONDOWN pos | MOUSEBUTTONUP pos =>
      {| _offset := _offset self; _cursor := pos;
         _dragging := negb (_dragging self); _running := _running self |}
  | MOUSEMOTION pos =>
      if _dragging self then
        {| _offset := (fst (_offset self) + (fst pos - fst (_cursor self)),
                       snd (_offset self) + (snd pos - snd (_cursor self)));
           _cursor := pos;
           _dragging := _dragging self; _running := _running self |}
      else self
  | OTHER => self
  end.

(** [Loop.__handle_events] on the events [pygame.event.get()] returned. *)
Definition handle_events (self : Loop) (events : list Event) : Loop :=
  fold_left handle_event events self.

(** The evolver [Loop.run] constructs:
    [NumberEvolver(min(max(desired_number, 0), 255), population_size, 255,
    cross_range, sleep)]. *)
Definition run_evolver (desired_number population_size cross_range : Z)
  (rnd : nat -> Z) : result (Params * NumberEvolver) :=
  let desired_number := Z.min (Z.max desired_number 0) 255 in
  init desired_number population_size 255 cross_range rnd.

(** [util.calc_level(num, 256, (200, 600))], the level [run] draws a
    member at. *)
Definition level (num : Z) : result Q :=
  util.calc_level num 256 (200, 600).

End loop.

(** ** Predicates used in the statements *)

(** [abs(self.__desired_number - b)]: how far [b] is from the target. *)
Definition distance (self : Params) (b : pynum) : pynum :=
  abs_diff (desired_number self) b.

(** A binary digit. *)
Definition bit (b : Z) : Prop := b = 0 \/ b = 1.

(** Strings of the characters ['0'] and ['1']. *)
Fixpoint binary (s : string) : Prop :=
  match s with
  | EmptyString => True
  | String c s' => (c = "0"%char \/ c = "1"%char) /\ binary s'
  end.

Definition nonneg (x : Z) : Prop := 0 <= x.

(** What [__init__] guarantees about the fixed fields. *)
Record wf_params (self : Params) : Prop := {
  wf_size : 2 <= population_size self;
  wf_bits : 1 <= max_bits self;
  wf_cross : cross_range self <= max_bits self / 2
}.

(** The invariant of the loop of [__evolve]. *)
Record inv (self : Params) (s : NumberEvolver) : Prop := {
  inv_length :
    length (_population s) = Z.to_nat (population_size self);
  inv_nonneg : Forall nonneg (_population s);
  inv_new_pop : _new_pop s = [];
  inv_history :
    Forall (fun r => length (population r) = Z.to_nat (population_size self))
           (_history s)
}.

(** The binary digits of a positive number, least significant first. *)
Fixpoint pos_bits (p : positive) : list Z :=
  match p with
  | xH => [1]
  | xO p' => 0 :: pos_bits p'
  | xI p' => 1 :: pos_bits p'
  end.

(** The binary digits of [n >= 0] in the order [bin] prints them, most
    significant first. *)
Definition msb_digits (n : Z) : list Z :=
  match n with
  | Zpos p => rev (pos_bits p)
  | _ => [0]
  end.

(** [bin_to_dec(dec_to_bin(n, places))], as [__evolve] composes them. *)
Definition decode_encode (n places : Z) : result Z :=
  let* bits := util.dec_to_bin n places in
  Ok (util.bin_to_dec bits).

(** A value that fits [w] binary digits. *)
Definition fits (w : Z) (x : Z) : Prop := 0 <= x < 2 ^ w.

(** Every member, pending child and recorded member fits the bit width. *)
Definition fits_all (self : Params) (s : NumberEvolver) : Prop :=
  Forall (fits (max_bits self)) (_population s)
  /\ Forall (fits (max_bits self)) (_new_pop s)
  /\ Forall (fun r => Forall (fits (max_bits self)) (population r))
            (_history s).

(** The record [__evolve] appends for the state [s]. *)
Definition snapshot (s : NumberEvolver) : EvolutionIteration :=
  {| iteration := _iteration s;
     population := _population s;
     best_number := _best s |}.

(** The history is numbered 1, 2, ... and ends with the current state. *)
Definition logged (s : NumberEvolver) : Prop :=
  _iteration s = Z.of_nat (length (_history s))
  /\ (forall k r, _history s !! k = Some r -> iteration r = Z.of_nat k + 1)
  /\ (_history s = [] \/ last (_history s) = Some (snapshot s)).

(** The order [sorted] sorts by. *)
Definition key_le (key : Z -> pynum) (a b : Z) : Prop :=
  pynum_leb (key a) (key b) = true.

(** Sample runs, used to exercise the definitions. *)
Module sample.

Definition params : Params :=
  {| desired_number := 5; population_size := 4; max_bits := 3;
     cross_range := 1 |}.

Definition draw (i : nat) : Draw :=
  {| shuffle_draw := fun j => Z.of_nat (i + j);
     cross_draw := Z.of_nat i;
     mutation_draw := Z.of_nat (2 * i + 1) |}.

(** [NumberEvolver(5, 4, 7)] with the starting population [[0, 3, 6, 1]]. *)
Definition start : NumberEvolver :=
  {| _best := Inf; _iteration := 0; _new_pop := []; _history := [];
     _population := [0; 3; 6; 1] |}.

Definition first : NumberEvolver :=
  {| _best := Int 6; _iteration := 1; _new_pop := [];
     _history := [ {| iteration := 1; population := [3; 3; 6; 3];
                      best_number := Int 6 |} ];
     _population := [3; 3; 6; 3] |}.

(** A state whose best estimate is the target. *)
Definition done : NumberEvolver :=
  {| _best := Int 5; _iteration := 3; _new_pop := [];
     _history := [ {| iteration := 3; population := [5; 6; 5; 5];
                      best_number := Int 5 |} ];
     _population := [5; 6; 5; 5] |}.

(** A mating that mutates position 1 and crosses at position 0. *)
Definition flip1 : Draw :=
  {| shuffle_draw := fun _ => 0; cross_draw := 0; mutation_draw := 1 |}.

End sample.

(** * Properties *)

(** ** The [result] monad and list accesses *)

Lemma rbind_ok {A B : Type} (m : result A) (k : A -> result B) (b : B) :
  rbind m k = Ok b -> exists a, m = Ok a /\ k a = Ok b.
Proof. destruct m as [a|e]; simpl; intros H; [eauto | discriminate]. Qed.

Lemma mapM_length {A B : Type} (f : A -> result B) (l : list A) (l' : list B) :
  mapM f l = Ok l' -> length l' = length l.
Proof.
  revert l'. induction l as [|a l IH]; simpl; intros l' H.
  - injection H as <-. reflexivity.
  - apply rbind_ok in H as (b & _ & H).
    apply rbind_ok in H as (bs & Hbs & H).
    injection H as <-. simpl. f_equal. auto.
Qed.

Section PyListFacts.
Context {A : Type}.
Implicit Types (l : list A) (i : Z).

Lemma in_range_nonneg l i :
  0 <= i < Z.of_nat (length l) -> in_range l i = true.
Proof.
  intros Hi. unfold in_range, norm_index.
  destruct (Z.ltb_spec i 0); [lia|].
  apply andb_true_intro; split; [apply Z.leb_le | apply Z.ltb_lt]; lia.
Qed.

Lemma getitem_ok l i :
  0 <= i < Z.of_nat (length l) ->
  exists a, getitem l i = Ok a /\ l !! Z.to_nat i = Some a.
Proof.
  intros Hi. unfold getitem. rewrite in_range_nonneg by assumption.
  unfold norm_index. destruct (Z.ltb_spec i 0); [lia|].
  destruct (lookup_lt_is_Some_2 l (Z.to_nat i)) as [a Ha]; [lia|].
  rewrite Ha. eauto.
Qed.

Lemma setitem_ok l i a :
  0 <= i < Z.of_nat (length l) ->
  setitem l i a = Ok (<[Z.to_nat i := a]> l).
Proof.
  intros Hi. unfold setitem. rewrite in_range_nonneg by assumption.
  unfold norm_index. destruct (Z.ltb_spec i 0); [lia|]. reflexivity.
Qed.

Lemma length_slice_to l k :
  0 <= k -> length (slice_to l k) = Nat.min (Z.to_nat k) (length l).
Proof.
  intros Hk. unfold slice_to. destruct (Z.ltb_spec k 0); [lia|].
  apply length_take.
Qed.
End PyListFacts.

(** ** [dec_to_bin] on a natural number *)

Lemma binary_pos_digits (p : positive) (acc : string) :
  binary acc -> binary (util.pos_digits p acc).
Proof.
  revert acc. induction p as [p IH|p IH|]; simpl; intros acc Hacc.
  - apply IH. simpl. auto.
  - apply IH. simpl. auto.
  - auto.
Qed.

Lemma binary_append (s t : string) :
  binary s -> binary t -> binary (String.append s t).
Proof.
  induction s as [|c s IH]; simpl; [auto|]. intros [Hc Hs] Ht. auto.
Qed.

Lemma binary_fill (k : nat) : binary (util.fill k "0").
Proof. induction k; simpl; auto. Qed.

Lemma length_append_fill (s : string) (k : nat) (c : ascii) :
  String.length (String.append s (util.fill k c)) = (String.length s + k)%nat.
Proof.
  induction s as [|a s IH]; simpl.
  - induction k; simpl; auto.
  - rewrite IH. reflexivity.
Qed.

(** A string of binary digits has no occurrence of ['0b']. *)
Lemma prefix_0b_binary (s : string) :
  binary s -> String.prefix "0b" s = false.
Proof.
  destruct s as [|c s]; [reflexivity|].
  intros [[-> | ->] Hs]; [|reflexivity].
  destruct s as [|c' s']; [reflexivity|].
  destruct Hs as [[-> | ->] _]; reflexivity.
Qed.

Lemma replace_from_binary (s : string) :
  binary s -> util.replace_from "0b" EmptyString 0 s = s.
Proof.
  induction s as [|c s IH]; [reflexivity|].
  intros Hcs. cbn [util.replace_from].
  rewrite (prefix_0b_binary _ Hcs).
  destruct Hcs as [_ Hs]. rewrite (IH Hs). reflexivity.
Qed.

(** The one occurrence of ['0b'] in [bin n] is its head. *)
Lemma replace_from_0b_head (ds : string) :
  util.replace_from "0b" EmptyString 0 (String "0" (String "b" ds))
  = util.replace_from "0b" EmptyString 0 ds.
Proof. destruct ds; reflexivity. Qed.

Lemma binary_replace_bin (n : Z) :
  0 <= n -> binary (util.replace (util.bin n) "0b" EmptyString).
Proof.
  intros Hn. destruct n as [|p|p]; [simpl; auto| |lia].
  unfold util.replace, util.bin.
  rewrite replace_from_0b_head.
  rewrite replace_from_binary; apply binary_pos_digits; exact I.
Qed.

Lemma mapM_int_of_char_binary (s : string) :
  binary s ->
  exists bits,
    mapM util.int_of_char (list_ascii_of_string s) = Ok bits
    /\ Forall bit bits
    /\ length bits = String.length s.
Proof.
  induction s as [|c s IH]; simpl.
  - intros _. exists []. auto.
  - intros [Hc Hs]. destruct (IH Hs) as (bits & -> & Hbits & Hlen).
    destruct Hc as [-> | ->].
    + exists (0 :: bits). repeat split; [constructor; [left|]; auto | simpl; lia].
    + exists (1 :: bits). repeat split; [constructor; [right|]; auto | simpl; lia].
Qed.

(** On [n >= 0] the encoder returns at least [places] binary digits. *)
Lemma dec_to_bin_ok (n places : Z) :
  0 <= n ->
  exists bits,
    util.dec_to_bin n places = Ok bits
    /\ Forall bit bits
    /\ places <= Z.of_nat (length bits).
Proof.
  intros Hn. unfold util.dec_to_bin, util.ljust.
  set (digits := util.replace (util.bin n) "0b" EmptyString).
  destruct (mapM_int_of_char_binary
              (String.append digits
                 (util.fill (Z.to_nat places - String.length digits) "0")))
    as (bits & Hbits & Hall & Hlen).
  - apply binary_append; [|apply binary_fill].
    apply binary_replace_bin. assumption.
  - exists bits. repeat split; try assumption.
    rewrite Hlen, length_append_fill. lia.
Qed.

(** ** [bin_to_dec] on non-negative digits *)

Lemma bin_to_dec_fold_nonneg (n : list Z) (i acc : Z) :
  Forall (fun b => 0 <= b) n -> 0 <= i -> 0 <= acc ->
  0 <= snd (fold_left
              (fun (prev : Z * Z) (curr : Z) =>
                 (fst prev + 1, snd prev + Z.shiftl curr (fst prev)))
              n (i, acc)).
Proof.
  revert i acc. induction n as [|b n IH]; simpl; intros i acc Hn Hi Hacc.
  - assumption.
  - inversion Hn as [|? ? Hb Hn']; subst.
    apply IH; [assumption | lia |].
    assert (0 <= Z.shiftl b i) by (apply Z.shiftl_nonneg; assumption).
    lia.
Qed.

Lemma bin_to_dec_nonneg (n : list Z) :
  Forall bit n -> 0 <= util.bin_to_dec n.
Proof.
  intros Hn. unfold util.bin_to_dec.
  apply bin_to_dec_fold_nonneg; [|lia|lia].
  eapply Forall_impl; [exact Hn|]. intros b [-> | ->]; lia.
Qed.

(** ** Shuffling and sorting keep the members *)

Section Rearrange.
Context {A : Type}.
Variable P : A -> Prop.

Lemma length_swap (x : list A) (i j : nat) :
  length (random.swap x i j) = length x.
Proof.
  unfold random.swap.
  destruct (x !! i); [|reflexivity]. destruct (x !! j); [|reflexivity].
  rewrite !length_insert. reflexivity.
Qed.

Lemma Forall_swap (x : list A) (i j : nat) :
  Forall P x -> Forall P (random.swap x i j).
Proof.
  intros Hx. unfold random.swap.
  destruct (x !! i) as [a|] eqn:Ha; [|assumption].
  destruct (x !! j) as [b|] eqn:Hb; [|assumption].
  apply Forall_insert; [apply Forall_insert|].
  - assumption.
  - exact (Forall_lookup_1 P x j b Hx Hb).
  - exact (Forall_lookup_1 P x i a Hx Ha).
Qed.

Lemma length_shuffle_from (rnd : nat -> Z) (i : nat) (x : list A) :
  length (random.shuffle_from rnd i x) = length x.
Proof.
  revert x. induction i as [|i IH]; intros x;
    cbn [random.shuffle_from]; [reflexivity|].
  rewrite IH. apply length_swap.
Qed.

Lemma Forall_shuffle_from (rnd : nat -> Z) (i : nat) (x : list A) :
  Forall P x -> Forall P (random.shuffle_from rnd i x).
Proof.
  revert x. induction i as [|i IH]; intros x Hx;
    cbn [random.shuffle_from]; [assumption|].
  apply IH, Forall_swap, Hx.
Qed.

Lemma length_shuffle (rnd : nat -> Z) (x : list A) :
  length (random.shuffle rnd x) = length x.
Proof. apply length_shuffle_from. Qed.

Lemma Forall_shuffle (rnd : nat -> Z) (x : list A) :
  Forall P x -> Forall P (random.shuffle rnd x).
Proof. apply Forall_shuffle_from. Qed.
End Rearrange.

Section Sorted.
Variable key : Z -> pynum.
Variable P : Z -> Prop.

Lemma length_insert_by (x : Z) (l : list Z) :
  length (insert_by key x l) = S (length l).
Proof.
  induction l as [|y l IH]; simpl; [reflexivity|].
  destruct (pynum_ltb (key y) (key x)); simpl; [rewrite IH|]; reflexivity.
Qed.

Lemma Forall_insert_by (x : Z) (l : list Z) :
  P x -> Forall P l -> Forall P (insert_by key x l).
Proof.
  intros Hx. induction 1 as [|y l Hy Hl IH]; simpl.
  - constructor; [assumption | constructor].
  - destruct (pynum_ltb (key y) (key x)); constructor; auto.
Qed.

Lemma length_sorted (l : list Z) : length (sorted l key) = length l.
Proof.
  induction l as [|x l IH]; simpl; [reflexivity|].
  rewrite length_insert_by. fold (sorted l key). rewrite IH. reflexivity.
Qed.

Lemma Forall_sorted (l : list Z) : Forall P l -> Forall P (sorted l key).
Proof.
  induction 1 as [|x l Hx Hl IH]; simpl; [constructor|].
  apply Forall_insert_by; assumption.
Qed.
End Sorted.

(** ** The [random] draws stay in their range *)

Lemma randint_range (a b e r : Z) :
  random.randint a b e = Ok r -> a <= r <= b.
Proof.
  unfold random.randint. destruct (Z.leb_spec a b); [|discriminate].
  intros [= <-].
  pose proof (Z.mod_pos_bound e (b - a + 1)). lia.
Qed.

Lemma randint_ok (a b e : Z) :
  a <= b -> exists r, random.randint a b e = Ok r /\ a <= r <= b.
Proof.
  intros Hab. unfold random.randint.
  destruct (Z.leb_spec a b); [|lia].
  eexists; split; [reflexivity|].
  pose proof (Z.mod_pos_bound e (b - a + 1)). lia.
Qed.

Lemma randint_empty (a b e : Z) :
  b < a -> random.randint a b e = Err ValueError.
Proof.
  intros Hab. unfold random.randint. destruct (Z.leb_spec a b); [lia|reflexivity].
Qed.

Lemma range_bounds (n : Z) : Forall (fun j => 0 <= j < n) (range n).
Proof.
  unfold range. apply Forall_forall. intros j Hj.
  apply list_elem_of_fmap in Hj as (k & -> & Hk).
  apply elem_of_seq in Hk. lia.
Qed.

(** ** Crossover and mutation on digit lists *)

Lemma bit_insert (bits : list Z) (i : nat) (b : Z) :
  Forall bit bits -> bit b -> Forall bit (<[i := b]> bits).
Proof. intros Hbits Hb. apply Forall_insert; assumption. Qed.

Lemma cross_loop_ok (w cross : Z) (js male female : list Z) :
  Forall (fun j => 0 <= cross + j < w) js ->
  w <= Z.of_nat (length male) -> w <= Z.of_nat (length female) ->
  Forall bit male -> Forall bit female ->
  exists male' female',
    cross_loop cross js male female = Ok (male', female')
    /\ length male' = length male /\ length female' = length female
    /\ Forall bit male' /\ Forall bit female'.
Proof.
  revert male female.
  induction js as [|j js IH]; intros male female Hjs Hm Hf Bm Bf; simpl.
  - exists male, female. auto.
  - inversion Hjs as [|? ? Hj Hjs']; subst.
    destruct (getitem_ok female (cross + j)) as (f & -> & Hfj); [lia|].
    destruct (getitem_ok male (cross + j)) as (m & -> & Hmj); [lia|].
    cbn [rbind].
    rewrite (setitem_ok male (cross + j) f) by lia.
    rewrite (setitem_ok female (cross + j) m) by lia.
    cbn [rbind].
    destruct (IH (<[Z.to_nat (cross + j) := f]> male)
                 (<[Z.to_nat (cross + j) := m]> female))
      as (male' & female' & -> & Lm & Lf & Bm' & Bf').
    + assumption.
    + rewrite length_insert. assumption.
    + rewrite length_insert. assumption.
    + apply bit_insert; [assumption|].
      exact (Forall_lookup_1 bit female _ f Bf Hfj).
    + apply bit_insert; [assumption|].
      exact (Forall_lookup_1 bit male _ m Bm Hmj).
    + exists male', female'. rewrite length_insert in Lm, Lf. auto.
Qed.

Lemma flip_ok (bits : list Z) (mutation_id : Z) :
  0 <= mutation_id < Z.of_nat (length bits) -> Forall bit bits ->
  exists bits',
    flip bits mutation_id = Ok bits'
    /\ length bits' = length bits /\ Forall bit bits'.
Proof.
  intros Hid Hbits. unfold flip.
  destruct (getitem_ok bits mutation_id) as (b & -> & Hb); [assumption|].
  cbn [rbind]. rewrite setitem_ok by assumption.
  eexists; split; [reflexivity|]. split; [apply length_insert|].
  apply bit_insert; [assumption|].
  destruct (Forall_lookup_1 bit bits _ b Hbits Hb) as [-> | ->];
    [right | left]; reflexivity.
Qed.

(** ** One mating *)

Lemma sorted_pair_head (a b : Z) (key : Z -> pynum) :
  exists c, getitem (sorted [a; b] key) 0 = Ok c /\ (c = a \/ c = b).
Proof.
  unfold sorted. simpl. destruct (pynum_ltb (key b) (key a)).
  - exists b. split; [reflexivity | right; reflexivity].
  - exists a. split; [reflexivity | left; reflexivity].
Qed.

Section MateFacts.
Variable self : Params.
Hypothesis Hwf : wf_params self.

Variables (best : pynum) (d : Draw) (pool : list Z).
Hypothesis Hlen : (2 <= length pool)%nat.
Hypothesis Hpool : Forall nonneg pool.

(** With a bit width of at least two, a mating raises nothing. *)
Lemma mate_ok :
  2 <= max_bits self ->
  exists pool' child,
    mate self best d pool = Ok (pool', child)
    /\ length pool' = length pool
    /\ Forall nonneg pool'
    /\ nonneg child.
Proof.
  intros Hbits. destruct Hwf as [_ _ Hcross]. unfold mate.
  pose proof (length_shuffle (shuffle_draw d) pool) as Lsh.
  pose proof (Forall_shuffle nonneg (shuffle_draw d) pool Hpool) as Nsh.
  set (pool' := random.shuffle (shuffle_draw d) pool) in *.
  destruct (getitem_ok pool' 0) as (p0 & -> & Hp0); [lia|].
  cbn [rbind].
  destruct (dec_to_bin_ok p0 (max_bits self))
    as (male & -> & Bm & Lm);
    [exact (Forall_lookup_1 nonneg pool' _ p0 Nsh Hp0)|].
  cbn [rbind].
  destruct (getitem_ok pool' 1) as (p1 & -> & Hp1); [lia|].
  cbn [rbind].
  destruct (dec_to_bin_ok p1 (max_bits self))
    as (female & -> & Bf & Lf);
    [exact (Forall_lookup_1 nonneg pool' _ p1 Nsh Hp1)|].
  cbn [rbind].
  assert (1 <= max_bits self / 2) as Hhalf
    by (apply Z.div_le_lower_bound; lia).
  assert (2 * (max_bits self / 2) <= max_bits self) as Hdouble
    by (apply Z.mul_div_le; lia).
  destruct (randint_ok 0 (max_bits self / 2 - 1) (cross_draw d))
    as (cross & -> & Hc); [lia|].
  cbn [rbind].
  destruct (cross_loop_ok (max_bits self) cross
              (range (cross_range self)) male female)
    as (male1 & female1 & -> & Lm1 & Lf1 & Bm1 & Bf1);
    try assumption.
  { eapply Forall_impl; [apply range_bounds|]. simpl. intros j Hj. lia. }
  destruct (randint_ok 0 (max_bits self - 1) (mutation_draw d))
    as (mutation_id & -> & Hmut); [lia|].
  cbn [rbind].
  destruct (flip_ok male1 mutation_id) as (male2 & -> & _ & Bm2);
    [lia | assumption |].
  cbn [rbind].
  destruct (flip_ok female1 mutation_id) as (female2 & -> & _ & Bf2);
    [lia | assumption |].
  cbn [rbind].
  destruct (sorted_pair_head (util.bin_to_dec male2)
              (util.bin_to_dec female2) (fun x => abs_diff x best))
    as (child & -> & Hchild).
  cbn [rbind]. exists pool', child. repeat split; try assumption.
  destruct Hchild as [-> | ->]; apply bin_to_dec_nonneg; assumption.
Qed.

(** With a bit width of one, [random.randint(0, -1)] raises. *)
Lemma mate_width_one :
  max_bits self < 2 -> mate self best d pool = Err ValueError.
Proof.
  intros Hbits. unfold mate.
  pose proof (length_shuffle (shuffle_draw d) pool) as Lsh.
  pose proof (Forall_shuffle nonneg (shuffle_draw d) pool Hpool) as Nsh.
  set (pool' := random.shuffle (shuffle_draw d) pool) in *.
  destruct (getitem_ok pool' 0) as (p0 & -> & Hp0); [lia|].
  cbn [rbind].
  destruct (dec_to_bin_ok p0 (max_bits self))
    as (male & -> & Bm & Lm);
    [exact (Forall_lookup_1 nonneg pool' _ p0 Nsh Hp0)|].
  cbn [rbind].
  destruct (getitem_ok pool' 1) as (p1 & -> & Hp1); [lia|].
  cbn [rbind].
  destruct (dec_to_bin_ok p1 (max_bits self))
    as (female & -> & Bf & Lf);
    [exact (Forall_lookup_1 nonneg pool' _ p1 Nsh Hp1)|].
  cbn [rbind].
  cbn [rbind]. rewrite randint_empty; [reflexivity|].
  assert (max_bits self / 2 < 1) by (apply Z.div_lt_upper_bound; lia).
  lia.
Qed.
End MateFacts.

(** ** The breeding loop and one generation *)

Lemma mapM_Forall {A B : Type} (f : A -> result B) (P : B -> Prop)
  (l : list A) (l' : list B) :
  (forall a b, f a = Ok b -> P b) -> mapM f l = Ok l' -> Forall P l'.
Proof.
  intros Hf. revert l'. induction l as [|a l IH]; simpl; intros l' H.
  - injection H as <-. constructor.
  - apply rbind_ok in H as (b & Hb & H).
    apply rbind_ok in H as (bs & Hbs & H).
    injection H as <-. constructor; eauto.
Qed.

(** Every mating that returns appends one child. *)
Lemma breed_length (self : Params) (best : pynum) (rnd : nat -> Draw)
  (idx : list nat) (pool new_pop pool' new_pop' : list Z) :
  breed self best rnd idx pool new_pop = Ok (pool', new_pop') ->
  length new_pop' = (length new_pop + length idx)%nat.
Proof.
  revert pool new_pop. induction idx as [|i idx IH]; simpl; intros pool new_pop H.
  - injection H as _ <-. lia.
  - apply rbind_ok in H as ([pool1 child] & _ & H).
    apply IH in H. rewrite H, length_app. simpl. lia.
Qed.

Section GenerationFacts.
Variable self : Params.
Hypothesis Hwf : wf_params self.

Lemma breed_ok (best : pynum) (rnd : nat -> Draw) (idx : list nat)
  (pool new_pop : list Z) :
  2 <= max_bits self ->
  (2 <= length pool)%nat -> Forall nonneg pool -> Forall nonneg new_pop ->
  exists pool' new_pop',
    breed self best rnd idx pool new_pop = Ok (pool', new_pop')
    /\ Forall nonneg new_pop'.
Proof.
  intros Hbits. revert pool new_pop.
  induction idx as [|i idx IH]; intros pool new_pop Hlen Hpool Hnew; simpl.
  - exists pool, new_pop. auto.
  - destruct (mate_ok self Hwf best (rnd i) pool Hlen Hpool Hbits)
      as (pool1 & child & -> & Hlen1 & Hpool1 & Hchild).
    cbn [rbind]. apply IH; [lia | assumption |].
    apply Forall_app; split; [assumption|].
    constructor; [assumption | constructor].
Qed.

Lemma breed_width_one (best : pynum) (rnd : nat -> Draw) (idx : list nat)
  (pool new_pop : list Z) :
  max_bits self < 2 -> idx <> [] ->
  (2 <= length pool)%nat -> Forall nonneg pool ->
  breed self best rnd idx pool new_pop = Err ValueError.
Proof.
  intros Hbits Hidx Hlen Hpool. destruct idx as [|i idx]; [congruence|].
  simpl. rewrite mate_width_one by assumption. reflexivity.
Qed.

Variable s : NumberEvolver.
Hypothesis Hinv : inv self s.

(** Truncation selection leaves at least two non-negative members. *)
Lemma breeding_pool_ok :
  (2 <= length (breeding_pool self s))%nat
  /\ Forall nonneg (breeding_pool self s).
Proof.
  destruct Hwf as [Hsize _ _]. destruct Hinv as [Hlen Hnn _ _].
  unfold breeding_pool. split.
  - rewrite length_slice_to by lia. rewrite length_sorted, Hlen. lia.
  - unfold slice_to.
    destruct (Z.ltb_spec (Z.max (population_size self / 4) 2) 0); [lia|].
    apply Forall_take, Forall_sorted, Hnn.
Qed.

Lemma generation_inv (rnd : nat -> Draw) (s' : NumberEvolver) :
  generation self rnd s = Ok s' -> inv self s'.
Proof.
  unfold generation. intros H.
  apply rbind_ok in H as ([pool' new_pop'] & Hbreed & H).
  injection H as <-.
  destruct Hinv as [Hlen Hnn Hnew Hhist].
  pose proof (breed_length _ _ _ _ _ _ _ _ Hbreed) as Hcount.
  rewrite Hnew, length_seq in Hcount. simpl in Hcount.
  assert (Forall nonneg new_pop') as Hnn'.
  { destruct breeding_pool_ok as [Hp2 Hpnn].
    destruct (Z_lt_le_dec (max_bits self) 2) as [Hsmall|Hbig].
    - rewrite breed_width_one in Hbreed; try assumption; [discriminate|].
      destruct Hwf as [Hsize _ _].
      destruct (Z.to_nat (population_size self)) eqn:E; [lia|]. discriminate.
    - destruct (breed_ok (_best s) rnd
                  (seq 0 (Z.to_nat (population_size self)))
                  (breeding_pool self s) (_new_pop s))
        as (p & np & Hb & Hnp); try assumption; [rewrite Hnew; constructor|].
      rewrite Hb in Hbreed. injection Hbreed as _ <-. assumption. }
  constructor; simpl; try assumption; try reflexivity.
  apply Forall_app; split; [assumption|].
  constructor; [assumption | constructor].
Qed.

(** With a bit width of at least two, a generation raises nothing. *)
Lemma generation_ok (rnd : nat -> Draw) :
  2 <= max_bits self -> exists s', generation self rnd s = Ok s'.
Proof.
  intros Hbits. unfold generation.
  destruct breeding_pool_ok as [Hp2 Hpnn].
  destruct (breed_ok (_best s) rnd
              (seq 0 (Z.to_nat (population_size self)))
              (breeding_pool self s) (_new_pop s))
    as (p & np & -> & Hnp); try assumption.
  { rewrite (inv_new_pop _ _ Hinv). constructor. }
  cbn [rbind]. eexists; reflexivity.
Qed.

(** With a bit width of one, the first mating raises [ValueError]. *)
Lemma generation_width_one (rnd : nat -> Draw) :
  max_bits self < 2 -> generation self rnd s = Err ValueError.
Proof.
  intros Hbits. unfold generation.
  destruct breeding_pool_ok as [Hp2 Hpnn].
  rewrite breed_width_one; try assumption; [reflexivity|].
  destruct Hwf as [Hsize _ _].
  destruct (Z.to_nat (population_size self)) eqn:E; [lia|]. discriminate.
Qed.
End GenerationFacts.

Lemma evolve_inv (self : Params) (rnds : list (nat -> Draw))
  (s s' : NumberEvolver) :
  wf_params self -> inv self s -> evolve self rnds s = Ok s' -> inv self s'.
Proof.
  intros Hwf. revert s. induction rnds as [|rnd rnds IH]; simpl; intros s Hinv H.
  - injection H as <-. assumption.
  - destruct (matched self s); [injection H as <-; assumption|].
    apply rbind_ok in H as (s1 & Hgen & H).
    apply (IH s1); [|assumption].
    exact (generation_inv self Hwf s Hinv rnd s1 Hgen).
Qed.

(** ** Construction *)

Lemma print_ints_ok (xs : list Z) (bound : Z) :
  bound < 10 ^ int_max_str_digits ->
  Forall (fun x => 0 <= x <= bound) xs ->
  print_ints xs = Ok tt.
Proof.
  intros Hbound Hxs. unfold print_ints.
  replace (forallb printable xs) with true; [reflexivity|].
  symmetry. apply forallb_forall. intros x Hx.
  rewrite Forall_forall in Hxs. apply list_elem_of_In in Hx.
  specialize (Hxs x Hx). unfold printable. apply Z.ltb_lt.
  revert Hbound. generalize (10 ^ int_max_str_digits). intros limit Hbound.
  lia.
Qed.

Lemma init_ok (desired size max_number cross : Z)
  (rnd : nat -> Z) :
  1 <= max_number < 10 ^ int_max_str_digits ->
  exists self s,
    init desired size max_number cross rnd
    = Ok (self, s).
Proof.
  intros [Hmax Hprint]. unfold init, floor_log2.
  destruct (Z.leb_spec max_number 0); [lia|]. cbn [rbind].
  generalize (seq 0 (Z.to_nat (Z.max size 2))). intros l.
  assert (exists pop,
            mapM (fun i => random.randint 0 max_number (rnd i)) l = Ok pop
            /\ Forall (fun x => 0 <= x <= max_number) pop)
    as (pop & -> & Hpop).
  { induction l as [|i l (pop & IH & Hpop)]; simpl; [eauto|].
    destruct (randint_ok 0 max_number (rnd i)) as (r & -> & Hr); [lia|].
    cbn [rbind]. rewrite IH. cbn [rbind]. eauto. }
  cbn [rbind]. rewrite (print_ints_ok pop max_number Hprint Hpop).
  cbn [rbind]. eauto.
Qed.

Lemma init_inv (desired size max_number cross : Z)
  (rnd : nat -> Z) (self : Params) (s : NumberEvolver) :
  init desired size max_number cross rnd
  = Ok (self, s) ->
  wf_params self /\ inv self s.
Proof.
  unfold init, floor_log2.
  destruct (Z.leb_spec max_number 0) as [_|Hmax]; [discriminate|].
  cbn [rbind]. intros H. apply rbind_ok in H as (pop & Hpop & H).
  apply rbind_ok in H as (? & _ & H).
  injection H as <- <-.
  pose proof (Z.log2_nonneg max_number).
  split; constructor; simpl; try lia.
  - rewrite (mapM_length _ _ _ Hpop), length_seq. reflexivity.
  - eapply mapM_Forall; [|exact Hpop]. intros i r Hr.
    apply randint_range in Hr. unfold nonneg. lia.
  - reflexivity.
  - constructor.
Qed.

(** ** Sample runs *)

Example init_sample :
  init 5 4 7 1 (fun i => Z.of_nat i * 3)
  = Ok (sample.params, sample.start).
Proof. reflexivity. Qed.

Example generation_sample :
  generation sample.params sample.draw sample.start = Ok sample.first.
Proof. vm_compute. reflexivity. Qed.

Example step_sample : step sample.params sample.start sample.first.
Proof.
  apply (step_generation _ sample.draw); [reflexivity|].
  exact generation_sample.
Defined.

(** ** The order on distances *)

Lemma pynum_leb_refl (a : pynum) : pynum_leb a a = true.
Proof. destruct a; simpl; [apply Z.leb_refl | reflexivity]. Qed.

Lemma pynum_leb_trans (a b c : pynum) :
  pynum_leb a b = true -> pynum_leb b c = true -> pynum_leb a c = true.
Proof.
  destruct a, b, c; simpl; try congruence; try reflexivity.
  rewrite !Z.leb_le. lia.
Qed.

Lemma pynum_leb_false (a b : pynum) :
  pynum_leb a b = false <-> pynum_ltb b a = true.
Proof.
  destruct a, b; simpl; try (split; congruence).
  rewrite Z.leb_gt, Z.ltb_lt. reflexivity.
Qed.

Lemma pynum_leb_true (a b : pynum) :
  pynum_leb a b = true <-> pynum_ltb b a = false.
Proof.
  pose proof (pynum_leb_false a b) as H.
  destruct (pynum_leb a b), (pynum_ltb b a); intuition congruence.
Qed.

Lemma pynum_eqb_eq (a b : pynum) : pynum_eqb a b = true <-> a = b.
Proof.
  destruct a, b; simpl; try (split; congruence).
  rewrite Z.eqb_eq. split; congruence.
Qed.

(** ** The rescan of the new population *)

Section RescanFacts.
Variable self : Params.

Lemma better_cases (best : pynum) (num : Z) :
  (pynum_leb (distance self best) (distance self (Int num)) = true
   /\ better self best num = best)
  \/ (pynum_ltb (distance self (Int num)) (distance self best) = true
      /\ better self best num = Int num).
Proof.
  unfold better. fold (distance self best). fold (distance self (Int num)).
  destruct (pynum_leb (distance self best) (distance self (Int num))) eqn:E.
  - left. auto.
  - right. split; [apply pynum_leb_false; assumption | reflexivity].
Qed.

Lemma better_closer (best : pynum) (num : Z) :
  pynum_leb (distance self (better self best num)) (distance self best)
  = true.
Proof.
  destruct (better_cases best num) as [[_ ->] | [Hlt ->]].
  - apply pynum_leb_refl.
  - destruct (pynum_leb (distance self (Int num)) (distance self best))
      eqn:E; [reflexivity|].
    apply pynum_leb_false in E.
    destruct (distance self (Int num)), (distance self best);
      simpl in *; try congruence.
    rewrite Z.ltb_lt in *. lia.
Qed.

Lemma rescan_cons (best : pynum) (num : Z) (pop : list Z) :
  rescan self best (num :: pop) = rescan self (better self best num) pop.
Proof. reflexivity. Qed.

Lemma rescan_closer (best : pynum) (pop : list Z) :
  pynum_leb (distance self (rescan self best pop)) (distance self best)
  = true.
Proof.
  revert best. induction pop as [|num pop IH]; intros best; simpl.
  - apply pynum_leb_refl.
  - eapply pynum_leb_trans; [apply IH | apply better_closer].
Qed.
End RescanFacts.

(** ** Runs of the loop *)

Lemma generation_best (self : Params) (rnd : nat -> Draw)
  (s s' : NumberEvolver) :
  generation self rnd s = Ok s' ->
  _best s' = rescan self (_best s) (_population s')
  /\ exists r, _history s' = _history s ++ [r].
Proof.
  unfold generation. intros H.
  apply rbind_ok in H as ([pool' new_pop'] & _ & H).
  injection H as <-. simpl. eauto.
Qed.

Lemma evolve_rtc (self : Params) (rnds : list (nat -> Draw))
  (s s' : NumberEvolver) :
  evolve self rnds s = Ok s' -> rtc (step self) s s'.
Proof.
  revert s. induction rnds as [|rnd rnds IH]; simpl; intros s H.
  - injection H as <-. apply rtc_refl.
  - destruct (matched self s) eqn:E; [injection H as <-; apply rtc_refl|].
    apply rbind_ok in H as (s1 & Hgen & H).
    eapply rtc_l; [exact (step_generation self rnd s s1 E Hgen) | auto].
Qed.

Lemma rtc_step_inv (self : Params) (s s' : NumberEvolver) :
  wf_params self -> inv self s -> rtc (step self) s s' -> inv self s'.
Proof.
  intros Hwf Hinv Hrun. induction Hrun as [s | s s1 s' Hstep _ IH]; [assumption|].
  apply IH. destruct Hstep as [rnd s s1 _ Hgen].
  exact (generation_inv self Hwf s Hinv rnd s1 Hgen).
Qed.

(** * The claims *)

(** C1. Encoding then decoding is not the identity: [dec_to_bin] pads the
    most-significant-first digits of [bin] on the right, and [bin_to_dec]
    reads position 0 as the least significant digit, so 6 at width 8
    (the default [max_number = 255]) comes back as 3. *)
Theorem roundtrip_of_6_is_3 :
  util.dec_to_bin 6 8 = Ok [1; 1; 0; 0; 0; 0; 0; 0]
  /\ util.bin_to_dec [1; 1; 0; 0; 0; 0; 0; 0] = 3
  /\ (let* bits := util.dec_to_bin 6 8 in Ok (util.bin_to_dec bits)) = Ok 3.
Proof. repeat split; reflexivity. Qed.

(** C2. The scenario on the code: [dec_to_bin(5, places=4)] is
    [[1, 0, 1, 0]], and [bin_to_dec([0, 1, 0, 1])] is 10. *)
Theorem scenario_5_places_4 :
  util.dec_to_bin 5 4 = Ok [1; 0; 1; 0]
  /\ util.bin_to_dec [0; 1; 0; 1] = 10.
Proof. split; reflexivity. Qed.

(** C3, as stated, fails: a member as far from the target as the current
    best, and different from it, does not become the best estimate. *)
Lemma tie_keeps_current_best :
  ~ (forall (self : Params) (best : pynum) (num : Z),
        distance self (Int num) = distance self best ->
        Int num <> best ->
        rescan self best [num] = Int num).
Proof.
  intros H. specialize (H sample.params (Int 4) 6).
  simpl in H. discriminate H; [reflexivity | congruence].
Qed.

(** C3, amended. The rescan leaves the best estimate as it is exactly
    when no member is strictly closer to the target than it; for one
    member, the member replaces the best estimate when it is strictly
    closer and is rejected otherwise, ties included. *)
Theorem rescan_replaces_only_strictly_closer
  (self : Params) (best : pynum) (pop : list Z) :
  (rescan self best pop = best
   <-> Forall (fun num =>
                 pynum_ltb (distance self (Int num)) (distance self best)
                 = false) pop)
  /\ (forall num,
         better self best num
         = if pynum_ltb (distance self (Int num)) (distance self best)
           then Int num else best).
Proof.
  split.
  - revert best. induction pop as [|num pop IH]; intros best.
    + split; [constructor | reflexivity].
    + rewrite rescan_cons.
      destruct (better_cases self best num) as [[Hle ->] | [Hlt ->]].
      * rewrite IH. split.
        -- intros Hpop. constructor; [|assumption].
           apply pynum_leb_true. assumption.
        -- intros Hall. inversion Hall; assumption.
      * split.
        -- intros Heq. exfalso.
           pose proof (rescan_closer self (Int num) pop) as Hle.
           rewrite Heq in Hle.
           apply pynum_leb_false in Hlt. congruence.
        -- intros Hall. inversion Hall; congruence.
  - intros num.
    destruct (better_cases self best num) as [[Hle ->] | [Hlt ->]].
    + apply pynum_leb_true in Hle. rewrite Hle. reflexivity.
    + rewrite Hlt. reflexivity.
Qed.

Lemma rescan_replaces_only_strictly_closer_witness :
  rescan sample.params (Int 4) [6; 3; 4] = Int 4
  /\ better sample.params (Int 4) 6 = Int 4
  /\ better sample.params (Int 4) 5 = Int 5.
Proof.
  destruct (rescan_replaces_only_strictly_closer sample.params (Int 4)
              [6; 3; 4]) as [[_ Hkeep] Hone].
  split; [|split].
  - apply Hkeep. repeat constructor.
  - rewrite (Hone 6). reflexivity.
  - rewrite (Hone 5). reflexivity.
Defined.

(** C4. A child can exceed [max_number]: with [max_number = 5] the bit
    width is 3, and flipping the middle digit of 5 gives 7. *)
Theorem child_exceeds_max_number :
  (let* (self, s) := init 3 2 5 1 (fun _ => 5) in
   let* s' := generation self (fun _ => sample.flip1) s in
   Ok (_population s, _population s'))
  = Ok ([5; 5], [7; 7]).
Proof. vm_compute. reflexivity. Qed.

(** C5. Along every run of the loop the distance of the best estimate to
    the target never grows; the starting [math.inf] is at infinite
    distance. *)
Theorem best_distance_non_increasing
  (self : Params) (s s' : NumberEvolver) :
  rtc (step self) s s' ->
  pynum_leb (distance self (_best s')) (distance self (_best s)) = true.
Proof.
  induction 1 as [s | s s1 s' Hstep _ IH]; [apply pynum_leb_refl|].
  eapply pynum_leb_trans; [exact IH|].
  destruct Hstep as [rnd s s1 _ Hgen].
  apply generation_best in Hgen as [-> _]. apply rescan_closer.
Qed.

Lemma best_distance_non_increasing_witness :
  rtc (step sample.params) sample.start sample.first
  /\ pynum_leb (distance sample.params (_best sample.first))
               (distance sample.params (_best sample.start)) = true.
Proof.
  assert (rtc (step sample.params) sample.start sample.first) as Hrun
    by (apply rtc_once, step_sample).
  split; [exact Hrun|].
  exact (best_distance_non_increasing _ _ _ Hrun).
Defined.

Lemma init_fields (desired size max_number cross : Z)
  (rnd : nat -> Z) (self : Params) (s : NumberEvolver) :
  init desired size max_number cross rnd
  = Ok (self, s) ->
  1 <= max_number
  /\ self = {| desired_number := Z.min (Z.max 0 desired) max_number;
               population_size := Z.max size 2;
               max_bits := Z.log2 max_number + 1;
               cross_range := Z.min ((Z.log2 max_number + 1) / 2) cross |}.
Proof.
  unfold init, floor_log2.
  destruct (Z.leb_spec max_number 0) as [_|Hmax]; [discriminate|].
  cbn [rbind]. intros H. apply rbind_ok in H as (pop & _ & H).
  apply rbind_ok in H as (? & _ & H).
  injection H as <- _. split; [lia | reflexivity].
Qed.

(** C6. In every state a run reaches from construction, the population
    has [max(population_size, 2)] members, and so has the population of
    every record of the history. *)
Theorem population_size_invariant
  (desired size max_number cross : Z)
  (rnd : nat -> Z) (self : Params) (s0 s : NumberEvolver) :
  init desired size max_number cross rnd
  = Ok (self, s0) ->
  rtc (step self) s0 s ->
  Z.of_nat (length (_population s)) = Z.max size 2
  /\ Forall (fun r => Z.of_nat (length (population r))
                      = Z.max size 2) (_history s).
Proof.
  intros Hinit Hrun.
  destruct (init_inv _ _ _ _ _ _ _ Hinit) as [Hwf Hinv].
  destruct (rtc_step_inv self s0 s Hwf Hinv Hrun) as [Hlen _ _ Hhist].
  apply init_fields in Hinit as [_ ->]. simpl in *.
  split; [lia|].
  eapply Forall_impl; [exact Hhist|]. simpl. intros r Hr. lia.
Qed.

Lemma population_size_invariant_witness :
  init 5 4 7 1 (fun i => Z.of_nat i * 3) = Ok (sample.params, sample.start)
  /\ rtc (step sample.params) sample.start sample.first
  /\ Z.of_nat (length (_population sample.first)) = Z.max 4 2.
Proof.
  assert (rtc (step sample.params) sample.start sample.first) as Hrun
    by (apply rtc_once, step_sample).
  split; [reflexivity|]. split; [exact Hrun|].
  exact (proj1 (population_size_invariant 5 4 7 1 (fun i => Z.of_nat i * 3)
                  sample.params sample.start sample.first eq_refl Hrun)).
Defined.

(** C7. A state whose best estimate is the target has no successor, and
    the loop returns it as it is, whatever entropy is left; every turn
    the loop does take appends exactly one record to the history. *)
Theorem evolve_halts_on_match (self : Params) (s : NumberEvolver) :
  (_best s = Int (desired_number self) ->
   (forall s', ~ step self s s')
   /\ (forall rnds, evolve self rnds s = Ok s))
  /\ (forall s', step self s s' ->
        _best s <> Int (desired_number self)
        /\ exists r, _history s' = _history s ++ [r]).
Proof.
  split.
  - intros Hbest.
    assert (matched self s = true) as Hm
      by (unfold matched; apply pynum_eqb_eq; assumption).
    split.
    + intros s' Hstep. destruct Hstep as [rnd s s' Hnot _]. congruence.
    + intros [|rnd rnds]; simpl; [reflexivity|]. rewrite Hm. reflexivity.
  - intros s' Hstep. destruct Hstep as [rnd s s' Hnot Hgen]. split.
    + intros Hbest. apply pynum_eqb_eq in Hbest.
      unfold matched in Hnot. congruence.
    + apply generation_best in Hgen as [_ Hhist]. exact Hhist.
Qed.

Lemma evolve_halts_on_match_witness :
  evolve sample.params [sample.draw; sample.draw] sample.done
  = Ok sample.done
  /\ exists r, _history sample.first = _history sample.start ++ [r].
Proof.
  split.
  - exact (proj2 (proj1 (evolve_halts_on_match sample.params sample.done)
                    eq_refl) [sample.draw; sample.draw]).
  - exact (proj2 (proj2 (evolve_halts_on_match sample.params sample.start)
                    sample.first step_sample)).
Defined.

(** C8, as stated, fails: [max_number = 0] makes [math.log] raise. *)
Lemma init_raises_on_max_number_0 :
  init 5 8 0 1 (fun _ => 0) = Err ValueError.
Proof. reflexivity. Qed.

(** C8, amended. For [1 <= max_number < 10 ^ 4300], construction
    raises nothing whatever the other arguments are, and the stored
    fields are the clamped arguments: the target is
    [min(max(0, desired_number), max_number)], so in [[0, max_number]],
    the population size is [max(population_size, 2)], so at least 2, and
    the crossover range is [min(max_bits // 2, cross_range)], so at most
    half the bit width. *)
Theorem init_clamps (desired size max_number cross : Z) (rnd : nat -> Z) :
  1 <= max_number < 10 ^ 4300 ->
  exists self s,
    init desired size max_number cross rnd = Ok (self, s)
    /\ desired_number self = Z.min (Z.max 0 desired) max_number
    /\ population_size self = Z.max size 2
    /\ cross_range self = Z.min (max_bits self / 2) cross
    /\ 0 <= desired_number self <= max_number
    /\ 2 <= population_size self
    /\ cross_range self <= max_bits self / 2.
Proof.
  intros Hmax.
  destruct (init_ok desired size max_number cross rnd Hmax)
    as (self & s & Hinit).
  exists self, s. split; [assumption|].
  apply init_fields in Hinit as [_ ->]. simpl.
  repeat split; lia.
Qed.

Lemma init_clamps_witness :
  exists self s,
    init (-3) 0 255 9 (fun i => Z.of_nat i) = Ok (self, s)
    /\ desired_number self = Z.min (Z.max 0 (-3)) 255
    /\ population_size self = Z.max 0 2
    /\ cross_range self = Z.min (max_bits self / 2) 9
    /\ 0 <= desired_number self <= 255
    /\ 2 <= population_size self
    /\ cross_range self <= max_bits self / 2.
Proof.
  apply (init_clamps (-3) 0 255 9 (fun i => Z.of_nat i)).
  split; [lia | reflexivity].
Defined.

(** C9, as stated, fails: [calc_level(255, 256, (200, 600))] is more than
    1 away from 200.39. *)
Lemma calc_level_255_is_not_200_39 :
  exists q : Q,
    util.calc_level 255 256 (200, 600) = Ok q
    /\ ~ (Qabs (q - (20039 # 100)) <= 1)%Q.
Proof.
  eexists. split; [reflexivity|]. intros H. vm_compute in H. apply H. reflexivity.
Qed.

(** C9, amended. [calc_level(0, 256, (200, 600))] is 600 and
    [calc_level(255, 256, (200, 600))] is 201.5625. *)
Theorem calc_level_scenario :
  (exists q : Q, util.calc_level 0 256 (200, 600) = Ok q /\ (q == 600)%Q)
  /\ (exists q : Q,
         util.calc_level 255 256 (200, 600) = Ok q /\ (q == 3225 # 16)%Q).
Proof.
  split; eexists; (split; [reflexivity|]); reflexivity.
Qed.

(** C10. In every state a run reaches from construction: the breeding
    pool has at least two members, so positions 0 and 1 of the shuffled
    pool exist; each pool member encodes to at least [max_bits] digits;
    every crossover position [cross + j] and every mutation position is
    a position below [max_bits]; and the generation does not raise
    [IndexError]. *)
Theorem list_accesses_in_bounds
  (desired size max_number cross : Z) (rnd0 : nat -> Z)
  (self : Params) (s0 s : NumberEvolver) :
  init desired size max_number cross rnd0 = Ok (self, s0) ->
  rtc (step self) s0 s ->
  (2 <= length (breeding_pool self s))%nat
  /\ (forall sh, exists p0 p1,
         getitem (random.shuffle sh (breeding_pool self s)) 0 = Ok p0
         /\ getitem (random.shuffle sh (breeding_pool self s)) 1 = Ok p1)
  /\ Forall (fun n => exists bits,
                 util.dec_to_bin n (max_bits self) = Ok bits
                 /\ max_bits self <= Z.of_nat (length bits))
            (breeding_pool self s)
  /\ (forall e c j,
         random.randint 0 (max_bits self / 2 - 1) e = Ok c ->
         j ∈ range (cross_range self) ->
         0 <= c + j < max_bits self)
  /\ (forall e m,
         random.randint 0 (max_bits self - 1) e = Ok m ->
         0 <= m < max_bits self)
  /\ (forall rnd, generation self rnd s <> Err IndexError).
Proof.
  intros Hinit Hrun.
  destruct (init_inv _ _ _ _ _ _ _ Hinit) as [Hwf Hinv0].
  pose proof (rtc_step_inv self s0 s Hwf Hinv0 Hrun) as Hinv.
  destruct (breeding_pool_ok self Hwf s Hinv) as [Hlen Hnn].
  split; [exact Hlen|]. split; [|split; [|split; [|split]]].
  - intros sh.
    pose proof (length_shuffle sh (breeding_pool self s)) as Lsh.
    destruct (getitem_ok (random.shuffle sh (breeding_pool self s)) 0)
      as (p0 & Hp0 & _); [lia|].
    destruct (getitem_ok (random.shuffle sh (breeding_pool self s)) 1)
      as (p1 & Hp1 & _); [lia|].
    eauto.
  - eapply Forall_impl; [exact Hnn|]. simpl. intros n Hn.
    destruct (dec_to_bin_ok n (max_bits self) Hn) as (bits & Hb & _ & Hl).
    eauto.
  - intros e c j Hc Hj. apply randint_range in Hc.
    pose proof (range_bounds (cross_range self)) as Hr.
    rewrite Forall_forall in Hr. specialize (Hr j Hj).
    destruct Hwf as [_ Hbits Hcross].
    pose proof (Z.mul_div_le (max_bits self) 2). lia.
  - intros e m Hm. apply randint_range in Hm. lia.
  - intros rnd.
    destruct (Z_lt_le_dec (max_bits self) 2) as [Hsmall|Hbig].
    + rewrite (generation_width_one self Hwf s Hinv rnd Hsmall). discriminate.
    + destruct (generation_ok self Hwf s Hinv rnd Hbig) as [s' ->].
      discriminate.
Qed.

Lemma list_accesses_in_bounds_witness :
  init 5 4 7 1 (fun i => Z.of_nat i * 3) = Ok (sample.params, sample.start)
  /\ rtc (step sample.params) sample.start sample.first
  /\ (2 <= length (breeding_pool sample.params sample.first))%nat
  /\ generation sample.params sample.draw sample.first <> Err IndexError.
Proof.
  assert (rtc (step sample.params) sample.start sample.first) as Hrun
    by (apply rtc_once, step_sample).
  split; [reflexivity|]. split; [exact Hrun|].
  destruct (list_accesses_in_bounds 5 4 7 1 (fun i => Z.of_nat i * 3)
              sample.params sample.start sample.first eq_refl Hrun)
    as (Hpool & _ & _ & _ & _ & Hgen).
  split; [exact Hpool | exact (Hgen sample.draw)].
Defined.


(** * Further properties of [utilities.py] *)

(** ** The decoder as a positional sum *)

Lemma bin_to_dec_fold (n : list Z) (i acc : Z) :
  0 <= i ->
  snd (fold_left
         (fun (prev : Z * Z) (curr : Z) =>
            (fst prev + 1, snd prev + Z.shiftl curr (fst prev)))
         n (i, acc))
  = acc + 2 ^ i * util.bin_to_dec n.
Proof.
  unfold util.bin_to_dec. revert i acc.
  induction n as [|b n IH]; intros i acc Hi; simpl.
  - lia.
  - rewrite (IH (i + 1)) by lia. rewrite (IH (0 + 1)) by lia.
    rewrite !Z.shiftl_mul_pow2 by lia.
    rewrite Z.pow_add_r by lia.
    change (2 ^ (0 + 1)) with 2. change (2 ^ 0) with 1. change (2 ^ 1) with 2.
    ring.
Qed.

Lemma bin_to_dec_cons (b : Z) (n : list Z) :
  util.bin_to_dec (b :: n) = b + 2 * util.bin_to_dec n.
Proof.
  unfold util.bin_to_dec at 1. simpl.
  rewrite bin_to_dec_fold by lia. rewrite Z.shiftl_0_r. reflexivity.
Qed.

Lemma bin_to_dec_nil : util.bin_to_dec [] = 0.
Proof. reflexivity. Qed.

Lemma bin_to_dec_app_sum (n m : list Z) :
  util.bin_to_dec (n ++ m)
  = util.bin_to_dec n + 2 ^ Z.of_nat (length n) * util.bin_to_dec m.
Proof.
  induction n as [|b n IH].
  - simpl app. rewrite bin_to_dec_nil. simpl length. simpl Z.of_nat.
    rewrite Z.pow_0_r. lia.
  - simpl app. rewrite !bin_to_dec_cons, IH.
    rewrite length_cons, Nat2Z.inj_succ, Z.pow_succ_r by lia. ring.
Qed.

Lemma bin_to_dec_zeros (k : nat) : util.bin_to_dec (repeat 0 k) = 0.
Proof.
  induction k as [|k IH]; [reflexivity|].
  simpl repeat. rewrite bin_to_dec_cons, IH. reflexivity.
Qed.

Lemma bin_to_dec_upper (n : list Z) :
  Forall bit n -> util.bin_to_dec n < 2 ^ Z.of_nat (length n).
Proof.
  induction 1 as [|b n Hb Hn IH].
  - rewrite bin_to_dec_nil. simpl. lia.
  - rewrite bin_to_dec_cons, length_cons, Nat2Z.inj_succ, Z.pow_succ_r by lia.
    destruct Hb as [-> | ->]; lia.
Qed.

(** X1. Decoding a concatenation: the digits of the second list weigh
    [2 ^ len(first)] times their own value. *)
Theorem bin_to_dec_app (n m : list Z) :
  util.bin_to_dec (n ++ m)
  = util.bin_to_dec n + 2 ^ Z.of_nat (length n) * util.bin_to_dec m.
Proof. apply bin_to_dec_app_sum. Qed.

(** X2. A list of [w] binary digits decodes into [[0, 2 ^ w)]. *)
Theorem bin_to_dec_range (n : list Z) :
  Forall bit n -> 0 <= util.bin_to_dec n < 2 ^ Z.of_nat (length n).
Proof.
  intros Hn. split; [apply bin_to_dec_nonneg | apply bin_to_dec_upper];
    assumption.
Qed.

Lemma bin_to_dec_range_witness :
  0 <= util.bin_to_dec [1; 0; 1; 1] < 2 ^ Z.of_nat (length [1; 0; 1; 1]).
Proof.
  apply (bin_to_dec_range [1; 0; 1; 1]).
  repeat constructor; (left; reflexivity) || (right; reflexivity).
Defined.

(** ** The encoder, digit by digit *)

Lemma mapM_fill_0 (k : nat) :
  mapM util.int_of_char (list_ascii_of_string (util.fill k "0"))
  = Ok (repeat 0 k).
Proof.
  induction k as [|k IH]; [reflexivity|].
  simpl util.fill. simpl list_ascii_of_string. simpl mapM.
  rewrite IH. reflexivity.
Qed.

Lemma mapM_pos_digits (p : positive) (acc : string) (accbits : list Z) :
  mapM util.int_of_char (list_ascii_of_string acc) = Ok accbits ->
  mapM util.int_of_char (list_ascii_of_string (util.pos_digits p acc))
  = Ok (rev (pos_bits p) ++ accbits).
Proof.
  revert acc accbits.
  induction p as [p IH|p IH|]; intros acc accbits Hacc; simpl.
  - rewrite (IH (String "1" acc) (1 :: accbits)).
    + rewrite <- app_assoc. reflexivity.
    + simpl. rewrite Hacc. reflexivity.
  - rewrite (IH (String "0" acc) (0 :: accbits)).
    + rewrite <- app_assoc. reflexivity.
    + simpl. rewrite Hacc. reflexivity.
  - rewrite Hacc. reflexivity.
Qed.

Lemma pos_digits_append (p : positive) (acc t : string) :
  String.append (util.pos_digits p acc) t
  = util.pos_digits p (String.append acc t).
Proof.
  revert acc. induction p as [p IH|p IH|]; intros acc; simpl;
    [apply IH | apply IH | reflexivity].
Qed.

Lemma length_pos_digits (p : positive) (acc : string) :
  String.length (util.pos_digits p acc)
  = (length (pos_bits p) + String.length acc)%nat.
Proof.
  revert acc. induction p as [p IH|p IH|]; intros acc; simpl;
    [rewrite IH; simpl; lia | rewrite IH; simpl; lia | reflexivity].
Qed.

Lemma length_pos_bits (p : positive) :
  Z.of_nat (length (pos_bits p)) = Z.log2 (Zpos p) + 1.
Proof.
  induction p as [p IH|p IH|]; [| |reflexivity].
  - change (pos_bits p~1) with (1 :: pos_bits p).
    rewrite length_cons, Nat2Z.inj_succ, IH.
    rewrite (Pos2Z.inj_xI p), Z.log2_succ_double by lia. lia.
  - change (pos_bits p~0) with (0 :: pos_bits p).
    rewrite length_cons, Nat2Z.inj_succ, IH.
    rewrite (Pos2Z.inj_xO p), Z.log2_double by lia. lia.
Qed.

Lemma length_msb_digits (n : Z) :
  0 <= n -> Z.of_nat (length (msb_digits n)) = Z.log2 n + 1.
Proof.
  intros Hn. destruct n as [|p|p]; [reflexivity| |lia].
  simpl msb_digits. rewrite length_rev. apply length_pos_bits.
Qed.

Lemma bit_pos_bits (p : positive) : Forall bit (pos_bits p).
Proof.
  induction p; simpl; constructor; auto; (left; reflexivity) || (right; reflexivity).
Qed.

Lemma bit_msb_digits (n : Z) : Forall bit (msb_digits n).
Proof.
  destruct n; simpl; try (constructor; [left; reflexivity | constructor]).
  apply Forall_rev, bit_pos_bits.
Qed.

Lemma bit_repeat_0 (k : nat) : Forall bit (repeat 0 k).
Proof. induction k; simpl; constructor; auto. left; reflexivity. Qed.

(** What the encoder returns on a natural number: the digits of [bin],
    then zeros up to [places]. *)
Lemma dec_to_bin_msb (n places : Z) :
  0 <= n ->
  util.dec_to_bin n places
  = Ok (msb_digits n
        ++ repeat 0 (Z.to_nat places - length (msb_digits n))).
Proof.
  intros Hn. destruct n as [|p|p]; [| |lia].
  { unfold util.dec_to_bin, util.ljust.
    change (util.replace (util.bin 0) "0b" EmptyString) with "0"%string.
    change (mapM util.int_of_char
              (list_ascii_of_string
                 (String.append "0"
                    (util.fill (Z.to_nat places - String.length "0") "0"))))
      with (let* bs := mapM util.int_of_char
                         (list_ascii_of_string
                            (util.fill (Z.to_nat places - 1) "0")) in
            Ok (0 :: bs)).
    rewrite mapM_fill_0. reflexivity. }
  unfold util.dec_to_bin, util.ljust, util.replace, util.bin.
  rewrite replace_from_0b_head.
  rewrite replace_from_binary by (apply binary_pos_digits; exact I).
  rewrite pos_digits_append, length_pos_digits. simpl String.append.
  simpl msb_digits. rewrite length_rev.
  simpl String.length. rewrite Nat.add_0_r.
  apply mapM_pos_digits, mapM_fill_0.
Qed.

Lemma bin_to_dec_pos_bits (p : positive) :
  util.bin_to_dec (pos_bits p) = Zpos p.
Proof.
  induction p as [p IH|p IH|]; [| |reflexivity].
  - change (pos_bits p~1) with (1 :: pos_bits p).
    rewrite bin_to_dec_cons, IH. lia.
  - change (pos_bits p~0) with (0 :: pos_bits p).
    rewrite bin_to_dec_cons, IH. lia.
Qed.

Lemma bin_to_dec_all_zero (n : list Z) :
  Forall (fun b => b = 0) n -> util.bin_to_dec n = 0.
Proof.
  induction 1 as [|b n -> _ IH]; [reflexivity|].
  rewrite bin_to_dec_cons, IH. reflexivity.
Qed.

Lemma all_zero_repeat (k : nat) : Forall (fun b => b = 0) (repeat 0 k).
Proof. induction k; simpl; constructor; auto. Qed.

Lemma pos_bits_last (p : positive) : exists l, pos_bits p = l ++ [1].
Proof.
  induction p as [p [l IH]|p [l IH]|]; simpl.
  - exists (1 :: l). rewrite IH. reflexivity.
  - exists (0 :: l). rewrite IH. reflexivity.
  - exists []. reflexivity.
Qed.

(** A digit list that ends in 1 is the digit list of the positive number
    it decodes to. *)
Lemma pos_bits_of_digits (l : list Z) :
  Forall bit l ->
  exists q, util.bin_to_dec (l ++ [1]) = Zpos q /\ pos_bits q = l ++ [1].
Proof.
  induction 1 as [|b l Hb _ (q & Hq & Hbits)].
  - exists xH. split; reflexivity.
  - simpl app. rewrite bin_to_dec_cons, Hq. destruct Hb as [-> | ->].
    + exists (xO q). split; [lia | simpl; rewrite Hbits; reflexivity].
    + exists (xI q). split; [lia | simpl; rewrite Hbits; reflexivity].
Qed.

Lemma decode_encode_msb (n places : Z) :
  0 <= n -> decode_encode n places = Ok (util.bin_to_dec (msb_digits n)).
Proof.
  intros Hn. unfold decode_encode. rewrite dec_to_bin_msb by assumption.
  cbn [rbind]. rewrite bin_to_dec_app_sum, bin_to_dec_zeros.
  f_equal. lia.
Qed.

(** X3. On [n >= 0] the encoder returns binary digits, as many as the
    larger of [places] and the number of digits of [n]. *)
Theorem dec_to_bin_width (n places : Z) :
  0 <= n ->
  exists bits,
    util.dec_to_bin n places = Ok bits
    /\ Forall bit bits
    /\ Z.of_nat (length bits) = Z.max places (Z.log2 n + 1).
Proof.
  intros Hn. eexists. split; [apply dec_to_bin_msb; assumption|]. split.
  - apply Forall_app; split; [apply bit_msb_digits | apply bit_repeat_0].
  - rewrite length_app, repeat_length, Nat2Z.inj_add.
    pose proof (length_msb_digits n Hn). lia.
Qed.

Lemma dec_to_bin_width_witness :
  exists bits,
    util.dec_to_bin 300 8 = Ok bits
    /\ Forall bit bits
    /\ Z.of_nat (length bits) = Z.max 8 (Z.log2 300 + 1).
Proof. apply (dec_to_bin_width 300 8). lia. Defined.

(** X4. A negative number makes the encoder raise [ValueError]: the
    sign that [bin] prints is no digit. *)
Theorem dec_to_bin_negative (n places : Z) :
  n < 0 -> util.dec_to_bin n places = Err ValueError.
Proof. intros Hn. destruct n as [|p|p]; [lia | lia | reflexivity]. Qed.

Lemma dec_to_bin_negative_witness :
  util.dec_to_bin (-5) 8 = Err ValueError.
Proof. apply (dec_to_bin_negative (-5) 8). lia. Defined.

(** X5. The encoding is most significant digit first: decoding its
    reversal gives [n] times two to the number of padding zeros, so [n]
    itself when nothing was padded. *)
Theorem decode_reversed_encoding (n places : Z) (bits : list Z) :
  0 <= n ->
  util.dec_to_bin n places = Ok bits ->
  util.bin_to_dec (rev bits)
  = n * 2 ^ Z.max 0 (places - (Z.log2 n + 1)).
Proof.
  intros Hn Hbits. rewrite dec_to_bin_msb in Hbits by assumption.
  injection Hbits as <-.
  rewrite rev_app_distr, bin_to_dec_app_sum.
  rewrite bin_to_dec_all_zero by (apply Forall_rev, all_zero_repeat).
  rewrite length_rev, repeat_length.
  assert (util.bin_to_dec (rev (msb_digits n)) = n) as ->.
  { destruct n as [|p|p]; [reflexivity| |lia].
    simpl msb_digits. rewrite rev_involutive. apply bin_to_dec_pos_bits. }
  pose proof (length_msb_digits n Hn) as Hlen.
  replace (Z.of_nat (Z.to_nat places - length (msb_digits n)))
    with (Z.max 0 (places - (Z.log2 n + 1))) by lia.
  lia.
Qed.

Lemma decode_reversed_encoding_witness :
  util.bin_to_dec (rev [1; 1; 0; 0; 0; 0; 0; 0])
  = 6 * 2 ^ Z.max 0 (8 - (Z.log2 6 + 1)).
Proof.
  apply (decode_reversed_encoding 6 8 [1; 1; 0; 0; 0; 0; 0; 0]);
    [lia | reflexivity].
Defined.

(** X6. Encoding then decoding does not depend on the width: the
    padding zeros sit at the most significant end of what the decoder
    reads. *)
Theorem decode_encode_any_width (n places places' : Z) :
  0 <= n -> decode_encode n places = decode_encode n places'.
Proof. intros Hn. rewrite !decode_encode_msb by assumption. reflexivity. Qed.

Lemma decode_encode_any_width_witness :
  decode_encode 6 8 = decode_encode 6 3.
Proof. apply (decode_encode_any_width 6 8 3). lia. Defined.

(** X7. Encoding then decoding a positive number gives an odd number,
    so no positive even number comes back as itself. *)
Theorem decode_encode_odd (n places v : Z) :
  0 < n -> decode_encode n places = Ok v -> Z.odd v = true.
Proof.
  intros Hn Hv. rewrite decode_encode_msb in Hv by lia.
  injection Hv as <-. destruct n as [|p|p]; try lia.
  simpl msb_digits. destruct (pos_bits_last p) as [l ->].
  rewrite rev_app_distr. simpl app. rewrite bin_to_dec_cons.
  rewrite Z.odd_add_mul_2. reflexivity.
Qed.

Lemma decode_encode_odd_witness :
  decode_encode 6 8 = Ok 3 /\ Z.odd 3 = true.
Proof.
  split; [reflexivity|].
  apply (decode_encode_odd 6 8 3); [lia | reflexivity].
Defined.

(** X8. The encoder does not tell [n] from [2 * n] when the width has
    room for the digits of [2 * n]. *)
Theorem dec_to_bin_double (n places : Z) :
  0 < n -> Z.log2 n + 2 <= places ->
  util.dec_to_bin (2 * n) places = util.dec_to_bin n places.
Proof.
  intros Hn Hroom. rewrite !dec_to_bin_msb by lia. f_equal.
  destruct n as [|p|p]; try lia.
  pose proof (length_pos_bits p) as Hlen.
  change (2 * Z.pos p) with (Z.pos p~0). simpl msb_digits.
  rewrite <- app_assoc, !length_app, !length_rev. f_equal.
  simpl length.
  replace (Z.to_nat places - length (pos_bits p))%nat
    with (S (Z.to_nat places - (length (pos_bits p) + 1)))%nat by lia.
  reflexivity.
Qed.

Lemma dec_to_bin_double_witness :
  util.dec_to_bin (2 * 3) 8 = util.dec_to_bin 3 8.
Proof. apply (dec_to_bin_double 3 8); [lia | reflexivity || (simpl; lia)]. Defined.

(** X9. On odd numbers, encoding then decoding is its own inverse: it
    reverses the binary digits. *)
Theorem decode_encode_involutive_on_odd (n places places' v : Z) :
  0 < n -> Z.odd n = true ->
  decode_encode n places = Ok v ->
  decode_encode v places' = Ok n.
Proof.
  intros Hn Hodd Hv. rewrite decode_encode_msb in Hv by lia.
  injection Hv as <-. destruct n as [|p|p]; try lia.
  simpl msb_digits.
  assert (exists t, pos_bits p = 1 :: t) as [t Ht]
    by (destruct p; simpl in *; [eauto | discriminate | eauto]).
  assert (Forall bit (rev t)) as Hbits.
  { apply Forall_rev. pose proof (bit_pos_bits p) as Hall.
    rewrite Ht in Hall. inversion Hall; assumption. }
  rewrite Ht. simpl rev.
  destruct (pos_bits_of_digits (rev t) Hbits) as (q & -> & Hq).
  rewrite decode_encode_msb by lia. simpl msb_digits.
  rewrite Hq, rev_app_distr, rev_involutive. simpl app.
  rewrite <- Ht, bin_to_dec_pos_bits. reflexivity.
Qed.

Lemma decode_encode_involutive_on_odd_witness :
  decode_encode 13 8 = Ok 11 /\ decode_encode 11 4 = Ok 13.
Proof.
  split; [reflexivity|].
  apply (decode_encode_involutive_on_odd 13 8 4 11);
    [lia | reflexivity | reflexivity].
Defined.

(** ** The scaling onto the drawing band *)

Lemma inject_Z_sub (a b : Z) :
  (inject_Z (a - b) == inject_Z a - inject_Z b)%Q.
Proof.
  unfold Z.sub. rewrite inject_Z_plus, inject_Z_opp. reflexivity.
Qed.

Lemma inject_Z_nonzero (a : Z) : a <> 0 -> ~ (inject_Z a == 0)%Q.
Proof. intros Ha H. apply Ha. unfold Qeq in H. simpl in H. lia. Qed.

Lemma inject_Z_pos (a : Z) : 0 < a -> (0 < inject_Z a)%Q.
Proof. intros Ha. unfold Qlt. simpl. lia. Qed.

Lemma inject_Z_le (a b : Z) : a <= b -> (inject_Z a <= inject_Z b)%Q.
Proof. intros Hab. unfold Qle. simpl. lia. Qed.

(** The level as a rational expression of the arguments. *)
Lemma calc_level_value (n max_num lo hi : Z) :
  max_num <> 0 ->
  exists q : Q,
    util.calc_level n max_num (lo, hi) = Ok q
    /\ (q == (inject_Z max_num - inject_Z n) / inject_Z max_num
             * (inject_Z hi - inject_Z lo) + inject_Z lo)%Q.
Proof.
  intros Hmax. unfold util.calc_level.
  destruct (Z.eqb_spec max_num 0) as [?|_]; [contradiction|].
  eexists. split; [reflexivity|]. simpl fst. simpl snd.
  rewrite !inject_Z_sub. reflexivity.
Qed.

(** X10. The ends of the scale, for a drawing range whose bounds are
    at most [2 ^ 52] in size: 0 is drawn at the upper bound of the range
    and [max_num] at its lower bound. *)
Theorem calc_level_endpoints (max_num lo hi : Z) :
  max_num <> 0 -> Z.abs lo <= 2 ^ 52 -> Z.abs hi <= 2 ^ 52 ->
  (exists q : Q,
      util.calc_level 0 max_num (lo, hi) = Ok q /\ (q == inject_Z hi)%Q)
  /\ (exists q : Q,
         util.calc_level max_num max_num (lo, hi) = Ok q
         /\ (q == inject_Z lo)%Q).
Proof.
  intros Hmax _ _. pose proof (inject_Z_nonzero max_num Hmax) as Hnz. split.
  - destruct (calc_level_value 0 max_num lo hi Hmax) as (q & Hq & Heq).
    exists q. split; [assumption|]. rewrite Heq. change (inject_Z 0) with 0%Q.
    field. assumption.
  - destruct (calc_level_value max_num max_num lo hi Hmax) as (q & Hq & Heq).
    exists q. split; [assumption|]. rewrite Heq. field. assumption.
Qed.

Lemma calc_level_endpoints_witness :
  (exists q : Q,
      util.calc_level 0 256 (200, 600) = Ok q /\ (q == inject_Z 600)%Q)
  /\ (exists q : Q,
         util.calc_level 256 256 (200, 600) = Ok q
         /\ (q == inject_Z 200)%Q).
Proof. apply (calc_level_endpoints 256 200 600); simpl; lia. Defined.

Lemma scale_fraction_bounds (n max_num : Z) :
  0 < max_num -> 0 <= n <= max_num ->
  (0 <= (inject_Z max_num - inject_Z n) / inject_Z max_num <= 1)%Q.
Proof.
  intros Hmax Hn.
  pose proof (inject_Z_pos max_num Hmax) as Hpos.
  assert (inject_Z 0 <= inject_Z n)%Q as Hn0 by (apply inject_Z_le; lia).
  assert (inject_Z n <= inject_Z max_num)%Q as Hn1
    by (apply inject_Z_le; lia).
  change (inject_Z 0) with 0%Q in Hn0.
  split.
  - apply Qle_shift_div_l; [assumption|]. lra.
  - apply Qle_shift_div_r; [assumption|]. lra.
Qed.

Lemma calc_level_band (n max_num lo hi : Z) :
  0 < max_num -> lo <= hi -> 0 <= n <= max_num ->
  exists q : Q,
    util.calc_level n max_num (lo, hi) = Ok q
    /\ (inject_Z lo <= q <= inject_Z hi)%Q.
Proof.
  intros Hmax Hband Hn.
  destruct (calc_level_value n max_num lo hi) as (q & Hq & Heq); [lia|].
  exists q. split; [assumption|]. rewrite Heq.
  pose proof (scale_fraction_bounds n max_num Hmax Hn) as [Ht0 Ht1].
  pose proof (inject_Z_le lo hi Hband) as Hlh.
  set (t := ((inject_Z max_num - inject_Z n) / inject_Z max_num)%Q) in *.
  split; nra.
Qed.

(** X11. For [max_num > 0] and a drawing range [lo <= hi] whose bounds
    are at most [2 ^ 52] in size, every [n] of [[0, max_num]] is drawn
    inside the range. *)
Theorem calc_level_in_band (n max_num lo hi : Z) :
  0 < max_num -> lo <= hi -> Z.abs lo <= 2 ^ 52 -> Z.abs hi <= 2 ^ 52 ->
  0 <= n <= max_num ->
  exists q : Q,
    util.calc_level n max_num (lo, hi) = Ok q
    /\ (inject_Z lo <= q <= inject_Z hi)%Q.
Proof. intros Hmax Hband _ _. apply calc_level_band; assumption. Qed.

Lemma calc_level_in_band_witness :
  exists q : Q,
    util.calc_level 150 256 (200, 600) = Ok q
    /\ (inject_Z 200 <= q <= inject_Z 600)%Q.
Proof. apply (calc_level_in_band 150 256 200 600); simpl; lia. Defined.

(** X12. For [max_num > 0] and [lo <= hi] the scale is reversed: a
    larger number is drawn at a level that is not larger. *)
Theorem calc_level_antitone (n n' max_num lo hi : Z) (q q' : Q) :
  0 < max_num -> lo <= hi -> n <= n' ->
  util.calc_level n max_num (lo, hi) = Ok q ->
  util.calc_level n' max_num (lo, hi) = Ok q' ->
  (q' <= q)%Q.
Proof.
  intros Hmax Hband Hnn Hq Hq'.
  destruct (calc_level_value n max_num lo hi) as (r & Hr & Heq); [lia|].
  destruct (calc_level_value n' max_num lo hi) as (r' & Hr' & Heq'); [lia|].
  rewrite Hq in Hr. injection Hr as <-.
  rewrite Hq' in Hr'. injection Hr' as <-.
  rewrite Heq, Heq'.
  pose proof (inject_Z_pos max_num Hmax) as Hpos.
  pose proof (inject_Z_le lo hi Hband) as Hlh.
  pose proof (inject_Z_le n n' Hnn) as Hn.
  apply Qplus_le_l, Qmult_le_compat_r; [|lra].
  apply Qle_shift_div_l; [assumption|].
  assert ((inject_Z max_num - inject_Z n') / inject_Z max_num
          * inject_Z max_num
          == inject_Z max_num - inject_Z n')%Q as ->
    by (field; lra).
  lra.
Qed.

Lemma calc_level_antitone_witness :
  exists q q' : Q,
    util.calc_level 10 256 (200, 600) = Ok q
    /\ util.calc_level 200 256 (200, 600) = Ok q'
    /\ (q' <= q)%Q.
Proof.
  eexists. eexists. split; [reflexivity|]. split; [reflexivity|].
  apply (calc_level_antitone 10 200 256 200 600); try lia; reflexivity.
Defined.

(** * Further properties of [number_evolver.py] *)

(** ** What a successful list access says *)

Section PyListInversion.
Context {A : Type}.
Implicit Types (l : list A) (i : Z).

Lemma in_range_lt l i :
  in_range l i = true -> (Z.to_nat (norm_index l i) < length l)%nat.
Proof.
  unfold in_range. intros H. apply andb_prop in H as [H0 H1].
  apply Z.leb_le in H0. apply Z.ltb_lt in H1. lia.
Qed.

Lemma getitem_inv l i a :
  getitem l i = Ok a ->
  in_range l i = true /\ l !! Z.to_nat (norm_index l i) = Some a.
Proof.
  unfold getitem. destruct (in_range l i); [|discriminate].
  destruct (l !! Z.to_nat (norm_index l i)); [|discriminate].
  intros [= <-]. auto.
Qed.

Lemma setitem_inv l i a l' :
  setitem l i a = Ok l' ->
  in_range l i = true /\ l' = <[Z.to_nat (norm_index l i) := a]> l.
Proof.
  unfold setitem. destruct (in_range l i); [|discriminate].
  intros [= <-]. auto.
Qed.

Lemma norm_index_nonneg l i : 0 <= i -> norm_index l i = i.
Proof. intros Hi. unfold norm_index. destruct (Z.ltb_spec i 0); lia. Qed.
End PyListInversion.

(** ** Crossover and mutation keep the shape of the digit lists *)

Lemma cross_loop_keeps (cross : Z) (js male female male' female' : list Z) :
  cross_loop cross js male female = Ok (male', female') ->
  length male' = length male /\ length female' = length female
  /\ (Forall bit male -> Forall bit female ->
      Forall bit male' /\ Forall bit female').
Proof.
  revert male female.
  induction js as [|j js IH]; intros male female H; simpl in H.
  - injection H as <- <-. auto.
  - apply rbind_ok in H as (f & Hf & H). apply rbind_ok in H as (m & Hm & H).
    apply rbind_ok in H as (male1 & Hm1 & H).
    apply rbind_ok in H as (female1 & Hf1 & H).
    apply getitem_inv in Hf as [_ Hf]. apply getitem_inv in Hm as [_ Hm].
    apply setitem_inv in Hm1 as [_ ->]. apply setitem_inv in Hf1 as [_ ->].
    apply IH in H as (Lm & Lf & Hbits).
    rewrite length_insert in Lm, Lf.
    split; [assumption|]. split; [assumption|]. intros Bm Bf.
    apply Hbits; apply bit_insert; try assumption.
    + exact (Forall_lookup_1 bit female _ f Bf Hf).
    + exact (Forall_lookup_1 bit male _ m Bm Hm).
Qed.

Lemma flip_keeps (bits bits' : list Z) (mutation_id : Z) :
  flip bits mutation_id = Ok bits' ->
  length bits' = length bits /\ (Forall bit bits -> Forall bit bits').
Proof.
  unfold flip. intros H. apply rbind_ok in H as (b & Hb & H).
  apply getitem_inv in Hb as [_ Hb]. apply setitem_inv in H as [_ ->].
  split; [apply length_insert|]. intros Hbits.
  apply bit_insert; [assumption|].
  destruct (Forall_lookup_1 bit bits _ b Hbits Hb) as [-> | ->];
    [right | left]; reflexivity.
Qed.

(** ** The steps of a successful mating *)

Lemma shuffle_from_Permutation {A : Type} (rnd : nat -> Z) (i : nat)
  (x : list A) :
  random.shuffle_from rnd i x ≡ₚ x.
Proof.
  revert x. induction i as [|i IH]; intros x;
    cbn [random.shuffle_from]; [reflexivity|].
  rewrite IH. unfold random.swap.
  destruct (x !! S i) as [a|] eqn:Ha; [|reflexivity].
  destruct (x !! Z.to_nat (rnd (S i) `mod` Z.of_nat (S i + 1)))
    as [b|] eqn:Hb; [|reflexivity].
  apply Permutation_insert_swap; assumption.
Qed.

Lemma mate_inversion (self : Params) (best : pynum) (d : Draw)
  (pool pool' : list Z) (child : Z) :
  mate self best d pool = Ok (pool', child) ->
  pool' = random.shuffle (shuffle_draw d) pool
  /\ exists p0 p1 male female cross male1 female1 mutation_id male2 female2,
      getitem pool' 0 = Ok p0
      /\ util.dec_to_bin p0 (max_bits self) = Ok male
      /\ getitem pool' 1 = Ok p1
      /\ util.dec_to_bin p1 (max_bits self) = Ok female
      /\ random.randint 0 (max_bits self / 2 - 1) (cross_draw d) = Ok cross
      /\ cross_loop cross (range (cross_range self)) male female
         = Ok (male1, female1)
      /\ random.randint 0 (max_bits self - 1) (mutation_draw d)
         = Ok mutation_id
      /\ flip male1 mutation_id = Ok male2
      /\ flip female1 mutation_id = Ok female2
      /\ getitem (sorted [util.bin_to_dec male2; util.bin_to_dec female2]
                         (fun x => abs_diff x best)) 0 = Ok child.
Proof.
  unfold mate. intros H.
  apply rbind_ok in H as (p0 & Hp0 & H).
  apply rbind_ok in H as (male & Hmale & H).
  apply rbind_ok in H as (p1 & Hp1 & H).
  apply rbind_ok in H as (female & Hfemale & H).
  apply rbind_ok in H as (cross & Hcross & H).
  apply rbind_ok in H as ([male1 female1] & Hloop & H).
  apply rbind_ok in H as (mutation_id & Hmut & H).
  apply rbind_ok in H as (male2 & Hm2 & H).
  apply rbind_ok in H as (female2 & Hf2 & H).
  apply rbind_ok in H as (c & Hc & H).
  injection H as <- <-. split; [reflexivity|].
  exists p0, p1, male, female, cross, male1, female1, mutation_id,
    male2, female2.
  repeat split; assumption.
Qed.

(** ** Members fit the bit width *)

Lemma dec_to_bin_fits (w n : Z) (bits : list Z) :
  1 <= w -> fits w n ->
  util.dec_to_bin n w = Ok bits ->
  Z.of_nat (length bits) = w /\ Forall bit bits.
Proof.
  intros Hw [Hn0 Hn1] Hbits.
  rewrite dec_to_bin_msb in Hbits by assumption. injection Hbits as <-.
  split.
  - rewrite length_app, repeat_length, Nat2Z.inj_add.
    pose proof (length_msb_digits n Hn0) as Hlen.
    destruct (Z.eq_dec n 0) as [-> | Hne]; [simpl in *; lia|].
    assert (Z.log2 n < w) by (apply Z.log2_lt_pow2; lia). lia.
  - apply Forall_app; split; [apply bit_msb_digits | apply bit_repeat_0].
Qed.

Lemma sorted_pair_member (a b c : Z) (key : Z -> pynum) :
  getitem (sorted [a; b] key) 0 = Ok c -> c = a \/ c = b.
Proof.
  destruct (sorted_pair_head a b key) as (c' & -> & Hc). intros [= <-].
  assumption.
Qed.

Lemma mate_fits (self : Params) (best : pynum) (d : Draw)
  (pool pool' : list Z) (child : Z) :
  Forall (fits (max_bits self)) pool ->
  mate self best d pool = Ok (pool', child) ->
  pool' ≡ₚ pool /\ fits (max_bits self) child.
Proof.
  intros Hpool H.
  apply mate_inversion in H
    as (-> & p0 & p1 & male & female & cross & male1 & female1
        & mutation_id & male2 & female2
        & Hp0 & Hmale & Hp1 & Hfemale & Hcross & Hloop & Hmut
        & Hm2 & Hf2 & Hchild).
  assert (random.shuffle (shuffle_draw d) pool ≡ₚ pool) as Hperm
    by apply shuffle_from_Permutation.
  split; [exact Hperm|].
  assert (Forall (fits (max_bits self))
            (random.shuffle (shuffle_draw d) pool)) as Hsh
    by (rewrite Hperm; assumption).
  apply randint_range in Hcross.
  assert (2 <= max_bits self) as Hw.
  { pose proof (Z.mul_div_le (max_bits self) 2). lia. }
  apply getitem_inv in Hp0 as [_ Hp0]. apply getitem_inv in Hp1 as [_ Hp1].
  apply (Forall_lookup_1 _ _ _ _ Hsh) in Hp0.
  apply (Forall_lookup_1 _ _ _ _ Hsh) in Hp1.
  apply dec_to_bin_fits in Hmale as [Lm Bm]; [|lia|assumption].
  apply dec_to_bin_fits in Hfemale as [Lf Bf]; [|lia|assumption].
  apply cross_loop_keeps in Hloop as (Lm1 & Lf1 & Hbits).
  destruct (Hbits Bm Bf) as [Bm1 Bf1].
  apply flip_keeps in Hm2 as [Lm2 Bm2]. apply flip_keeps in Hf2 as [Lf2 Bf2].
  specialize (Bm2 Bm1). specialize (Bf2 Bf1).
  unfold fits.
  apply sorted_pair_member in Hchild as [-> | ->].
  - pose proof (bin_to_dec_nonneg male2 Bm2).
    pose proof (bin_to_dec_upper male2 Bm2) as Hr.
    rewrite Lm2, Lm1, Lm in Hr. lia.
  - pose proof (bin_to_dec_nonneg female2 Bf2).
    pose proof (bin_to_dec_upper female2 Bf2) as Hr.
    rewrite Lf2, Lf1, Lf in Hr. lia.
Qed.

Lemma breeding_pool_Forall (self : Params) (s : NumberEvolver)
  (P : Z -> Prop) :
  Forall P (_population s) -> Forall P (breeding_pool self s).
Proof.
  intros Hpop. unfold breeding_pool, slice_to.
  destruct (_ <? 0); apply Forall_take, Forall_sorted, Hpop.
Qed.

Lemma breed_fits (self : Params) (best : pynum) (rnd : nat -> Draw)
  (idx : list nat) (pool new_pop pool' new_pop' : list Z) :
  Forall (fits (max_bits self)) pool ->
  Forall (fits (max_bits self)) new_pop ->
  breed self best rnd idx pool new_pop = Ok (pool', new_pop') ->
  pool' ≡ₚ pool /\ Forall (fits (max_bits self)) new_pop'.
Proof.
  revert pool new_pop.
  induction idx as [|i idx IH]; intros pool new_pop Hpool Hnew H; simpl in H.
  - injection H as <- <-. auto.
  - apply rbind_ok in H as ([pool1 child] & Hmate & H).
    destruct (mate_fits _ _ _ _ _ _ Hpool Hmate) as [Hperm Hchild].
    apply IH in H as [Hperm' Hnew'].
    + split; [rewrite Hperm'; exact Hperm | exact Hnew'].
    + rewrite Hperm. assumption.
    + apply Forall_app; split; [assumption|]. constructor; [assumption|constructor].
Qed.

Lemma generation_inversion (self : Params) (rnd : nat -> Draw)
  (s s' : NumberEvolver) :
  generation self rnd s = Ok s' ->
  exists pool' new_pop,
    breed self (_best s) rnd (seq 0 (Z.to_nat (population_size self)))
          (breeding_pool self s) (_new_pop s) = Ok (pool', new_pop)
    /\ _population s' = new_pop
    /\ _new_pop s' = []
    /\ _iteration s' = _iteration s + 1
    /\ _best s' = rescan self (_best s) new_pop
    /\ _history s' = _history s ++ [snapshot s'].
Proof.
  unfold generation. intros H.
  apply rbind_ok in H as ([pool' new_pop] & Hbreed & H).
  injection H as <-. exists pool', new_pop. simpl. auto 10.
Qed.

Lemma rtc_step_preserves (self : Params) (P : NumberEvolver -> Prop) :
  (forall rnd s s', P s -> generation self rnd s = Ok s' -> P s') ->
  forall s s', P s -> rtc (step self) s s' -> P s'.
Proof.
  intros Hgen s s' Hs Hrun.
  induction Hrun as [s | s s1 s' Hstep _ IH]; [assumption|].
  apply IH. destruct Hstep as [rnd s s1 _ Hs1]. eauto.
Qed.

Lemma generation_fits_all (self : Params) (rnd : nat -> Draw)
  (s s' : NumberEvolver) :
  fits_all self s -> generation self rnd s = Ok s' -> fits_all self s'.
Proof.
  intros (Hpop & Hnew & Hhist) H.
  apply generation_inversion in H
    as (pool' & new_pop & Hbreed & Hp & Hn & _ & _ & Hh).
  apply breed_fits in Hbreed as [_ Hfits];
    [|apply breeding_pool_Forall; assumption|assumption].
  unfold fits_all. rewrite Hp, Hn, Hh. split; [assumption|].
  split; [constructor|].
  apply Forall_app; split; [assumption|].
  constructor; [|constructor]. simpl. rewrite Hp. assumption.
Qed.

Lemma init_population (desired size max_number cross : Z) (rnd : nat -> Z)
  (self : Params) (s : NumberEvolver) :
  init desired size max_number cross rnd = Ok (self, s) ->
  Forall (fun x => 0 <= x <= max_number) (_population s)
  /\ Z.of_nat (length (_population s)) = Z.max size 2
  /\ _best s = Inf /\ _iteration s = 0
  /\ _new_pop s = [] /\ _history s = [].
Proof.
  unfold init, floor_log2.
  destruct (Z.leb_spec max_number 0) as [_|Hmax]; [discriminate|].
  cbn [rbind]. intros H. apply rbind_ok in H as (pop & Hpop & H).
  apply rbind_ok in H as (? & _ & H).
  injection H as _ <-. simpl. repeat split.
  - eapply mapM_Forall; [|exact Hpop]. intros i r Hr.
    apply randint_range in Hr. exact Hr.
  - rewrite (mapM_length _ _ _ Hpop), length_seq. lia.
Qed.

Lemma init_fits_all (desired size max_number cross : Z) (rnd : nat -> Z)
  (self : Params) (s : NumberEvolver) :
  init desired size max_number cross rnd = Ok (self, s) ->
  max_number < 2 ^ max_bits self ->
  fits_all self s.
Proof.
  intros H Hlt.
  apply init_population in H as (Hpop & _ & _ & _ & Hn & Hh).
  unfold fits_all. rewrite Hn, Hh. repeat split; try constructor.
  eapply Forall_impl; [exact Hpop|]. simpl. unfold fits. lia.
Qed.

Lemma reachable_fits_all (desired size max_number cross : Z)
  (rnd : nat -> Z) (self : Params) (s0 s : NumberEvolver) :
  init desired size max_number cross rnd = Ok (self, s0) ->
  max_number < 2 ^ max_bits self ->
  rtc (step self) s0 s ->
  fits_all self s.
Proof.
  intros Hinit Hlt. apply rtc_step_preserves.
  - intros r s1 s2. apply generation_fits_all.
  - exact (init_fits_all _ _ _ _ _ _ _ Hinit Hlt).
Qed.

(** X13. What construction leaves when it returns:
    [max(population_size, 2)] members drawn from [[0, max_number]], the
    best estimate [math.inf], no iteration counted and nothing logged. *)
Theorem init_starting_state (desired size max_number cross : Z)
  (rnd : nat -> Z) (self : Params) (s : NumberEvolver) :
  init desired size max_number cross rnd = Ok (self, s) ->
  Forall (fun x => 0 <= x <= max_number) (_population s)
  /\ Z.of_nat (length (_population s)) = Z.max size 2
  /\ _best s = Inf /\ _iteration s = 0
  /\ _new_pop s = [] /\ _history s = [].
Proof. apply init_population. Qed.

Lemma init_starting_state_witness :
  Forall (fun x => 0 <= x <= 7) (_population sample.start)
  /\ Z.of_nat (length (_population sample.start)) = Z.max 4 2
  /\ _best sample.start = Inf /\ _iteration sample.start = 0
  /\ _new_pop sample.start = [] /\ _history sample.start = [].
Proof.
  apply (init_starting_state 5 4 7 1 (fun i => Z.of_nat i * 3) sample.params).
  reflexivity.
Defined.

(** X14. When the bit width that construction stored is wide enough for
    [max_number], that is [max_number < 2 ^ max_bits], every member of
    the population and of every logged population lies in
    [[0, 2 ^ max_bits)], in every state a run reaches. *)
Theorem members_fit_bit_width (desired size max_number cross : Z)
  (rnd : nat -> Z) (self : Params) (s0 s : NumberEvolver) :
  init desired size max_number cross rnd = Ok (self, s0) ->
  max_number < 2 ^ max_bits self ->
  rtc (step self) s0 s ->
  Forall (fun x => 0 <= x < 2 ^ max_bits self) (_population s)
  /\ Forall (fun r => Forall (fun x => 0 <= x < 2 ^ max_bits self)
                             (population r)) (_history s).
Proof.
  intros Hinit Hlt Hrun.
  destruct (reachable_fits_all _ _ _ _ _ _ _ _ Hinit Hlt Hrun)
    as (Hp & _ & Hh).
  split; assumption.
Qed.

Lemma members_fit_bit_width_witness :
  Forall (fun x => 0 <= x < 2 ^ max_bits sample.params)
         (_population sample.first).
Proof.
  apply (members_fit_bit_width 5 4 7 1 (fun i => Z.of_nat i * 3)
           sample.params sample.start sample.first);
    [reflexivity | reflexivity | apply rtc_once, step_sample].
Defined.

(** X15. When [max_number + 1] is two to the bit width that
    construction stored, that is [max_number + 1 = 2 ^ max_bits], every
    member of every population a run reaches stays in
    [[0, max_number]]. *)
Theorem members_within_max_number (desired size max_number cross : Z)
  (rnd : nat -> Z) (self : Params) (s0 s : NumberEvolver) :
  max_number + 1 = 2 ^ max_bits self ->
  init desired size max_number cross rnd = Ok (self, s0) ->
  rtc (step self) s0 s ->
  Forall (fun x => 0 <= x <= max_number) (_population s).
Proof.
  intros Hpow Hinit Hrun.
  assert (max_number < 2 ^ max_bits self) as Hlt by lia.
  destruct (reachable_fits_all _ _ _ _ _ _ _ _ Hinit Hlt Hrun)
    as (Hp & _ & _).
  eapply Forall_impl; [exact Hp|]. simpl. unfold fits. lia.
Qed.

Lemma members_within_max_number_witness :
  Forall (fun x => 0 <= x <= 7) (_population sample.first).
Proof.
  apply (members_within_max_number 5 4 7 1 (fun i => Z.of_nat i * 3)
           sample.params sample.start sample.first);
    [reflexivity | reflexivity | apply rtc_once, step_sample].
Defined.

(** ** Exceptions of the loop *)

Lemma init_not_matched (desired size max_number cross : Z) (rnd : nat -> Z)
  (self : Params) (s : NumberEvolver) :
  init desired size max_number cross rnd = Ok (self, s) ->
  matched self s = false.
Proof.
  intros H. apply init_population in H as (_ & _ & Hbest & _).
  unfold matched. rewrite Hbest. reflexivity.
Qed.

(** X16. With [max_number = 1] the bit width is 1 and the first
    generation raises [ValueError]: [random.randint(0, -1)] has nothing
    to draw from. *)
Theorem evolve_raises_on_max_number_1 (desired size cross : Z)
  (rnd0 : nat -> Z) (self : Params) (s0 : NumberEvolver)
  (rnd : nat -> Draw) (rnds : list (nat -> Draw)) :
  init desired size 1 cross rnd0 = Ok (self, s0) ->
  evolve self (rnd :: rnds) s0 = Err ValueError.
Proof.
  intros Hinit. destruct (init_inv _ _ _ _ _ _ _ Hinit) as [Hwf Hinv].
  simpl. rewrite (init_not_matched _ _ _ _ _ _ _ Hinit).
  rewrite (generation_width_one self Hwf s0 Hinv rnd); [reflexivity|].
  apply init_fields in Hinit as [_ ->]. simpl. lia.
Qed.

Lemma evolve_raises_on_max_number_1_witness :
  exists self s0,
    init 1 4 1 1 (fun _ => 0) = Ok (self, s0)
    /\ evolve self [sample.draw] s0 = Err ValueError.
Proof.
  eexists. eexists. split; [reflexivity|].
  apply (evolve_raises_on_max_number_1 1 4 1 (fun _ => 0)). reflexivity.
Defined.

(** X18. The loop stops before its entropy is used up only on a match:
    a returned state either has the target as best estimate or has
    counted one iteration per supplied generation. *)
Theorem evolve_stops_only_on_match (self : Params)
  (rnds : list (nat -> Draw)) (s s' : NumberEvolver) :
  evolve self rnds s = Ok s' ->
  _best s' = Int (desired_number self)
  \/ _iteration s' = _iteration s + Z.of_nat (length rnds).
Proof.
  revert s. induction rnds as [|rnd rnds IH]; intros s H; simpl in H.
  - injection H as <-. right. simpl. lia.
  - destruct (matched self s) eqn:Hm.
    + injection H as <-. left. apply pynum_eqb_eq. exact Hm.
    + apply rbind_ok in H as (s1 & Hgen & H).
      apply generation_inversion in Hgen as (_ & _ & _ & _ & _ & Hit & _).
      destruct (IH s1 H) as [Hbest | Hcount]; [left; assumption|].
      right. rewrite Hcount, Hit, length_cons, Nat2Z.inj_succ. lia.
Qed.

Lemma evolve_stops_only_on_match_witness :
  evolve sample.params [sample.draw] sample.start = Ok sample.first
  /\ (_best sample.first = Int (desired_number sample.params)
      \/ _iteration sample.first
         = _iteration sample.start + Z.of_nat (length [sample.draw])).
Proof.
  assert (evolve sample.params [sample.draw] sample.start = Ok sample.first)
    as Hrun by (vm_compute; reflexivity).
  split; [exact Hrun|].
  exact (evolve_stops_only_on_match sample.params [sample.draw]
           sample.start sample.first Hrun).
Defined.

(** ** The history *)

Lemma generation_logged (self : Params) (rnd : nat -> Draw)
  (s s' : NumberEvolver) :
  logged s -> generation self rnd s = Ok s' -> logged s'.
Proof.
  intros (Hcount & Hnum & _) H.
  apply generation_inversion in H as (_ & _ & _ & _ & _ & Hit & _ & Hh).
  unfold logged. rewrite Hh, length_app, Hit, Hcount. simpl length.
  split; [lia|]. split.
  - intros k r Hk. apply lookup_app_Some in Hk as [Hk | [Hlen Hk]].
    + apply Hnum. exact Hk.
    + apply list_lookup_singleton_Some in Hk as [Hk <-].
      simpl. rewrite Hit, Hcount. lia.
  - right. apply last_snoc.
Qed.

Lemma reachable_logged (desired size max_number cross : Z)
  (rnd : nat -> Z) (self : Params) (s0 s : NumberEvolver) :
  init desired size max_number cross rnd = Ok (self, s0) ->
  rtc (step self) s0 s ->
  logged s.
Proof.
  intros Hinit. apply rtc_step_preserves.
  - intros r s1 s2. apply generation_logged.
  - apply init_population in Hinit as (_ & _ & _ & Hit & _ & Hh).
    unfold logged. rewrite Hit, Hh. simpl. split; [reflexivity|].
    split; [|left; reflexivity]. intros k r Hk.
    rewrite lookup_nil in Hk. discriminate.
Qed.

(** X19. In every state a run reaches from construction, the iteration
    counter is the length of the history, the record at position [k] is
    numbered [k + 1], and the last record holds the current iteration,
    population and best estimate. *)
Theorem history_numbered (desired size max_number cross : Z)
  (rnd : nat -> Z) (self : Params) (s0 s : NumberEvolver) :
  init desired size max_number cross rnd = Ok (self, s0) ->
  rtc (step self) s0 s ->
  _iteration s = Z.of_nat (length (_history s))
  /\ (forall k r, _history s !! k = Some r -> iteration r = Z.of_nat k + 1)
  /\ (_history s = []
      \/ last (_history s)
         = Some {| iteration := _iteration s;
                   population := _population s;
                   best_number := _best s |}).
Proof. apply reachable_logged. Qed.

Lemma history_numbered_witness :
  _iteration sample.first = Z.of_nat (length (_history sample.first))
  /\ (forall k r,
         _history sample.first !! k = Some r -> iteration r = Z.of_nat k + 1)
  /\ (_history sample.first = []
      \/ last (_history sample.first)
         = Some {| iteration := _iteration sample.first;
                   population := _population sample.first;
                   best_number := _best sample.first |}).
Proof.
  apply (history_numbered 5 4 7 1 (fun i => Z.of_nat i * 3)
           sample.params sample.start sample.first);
    [reflexivity | apply rtc_once, step_sample].
Defined.

(** X20. The history only grows at its end: along every run the earlier
    history is a prefix of the later one. *)
Theorem history_append_only (self : Params) (s s' : NumberEvolver) :
  rtc (step self) s s' -> _history s `prefix_of` _history s'.
Proof.
  induction 1 as [s | s s1 s' Hstep _ IH]; [reflexivity|].
  destruct Hstep as [rnd s s1 _ Hgen].
  apply generation_inversion in Hgen as (_ & _ & _ & _ & _ & _ & _ & Hh).
  etransitivity; [|exact IH]. rewrite Hh. apply prefix_app_r. reflexivity.
Qed.

Lemma history_append_only_witness :
  _history sample.start `prefix_of` _history sample.first.
Proof.
  apply (history_append_only sample.params).
  apply rtc_once, step_sample.
Defined.

(** ** The best estimate after a generation *)

Section RescanClosest.
Variable self : Params.

Lemma better_closer_than_num (best : pynum) (num : Z) :
  pynum_leb (distance self (better self best num)) (distance self (Int num))
  = true.
Proof.
  destruct (better_cases self best num) as [[Hle ->] | [_ ->]];
    [exact Hle | apply pynum_leb_refl].
Qed.

Lemma rescan_closest (best : pynum) (pop : list Z) :
  Forall (fun num =>
            pynum_leb (distance self (rescan self best pop))
                      (distance self (Int num)) = true) pop.
Proof.
  revert best. induction pop as [|num pop IH]; intros best; [constructor|].
  rewrite rescan_cons. constructor; [|apply IH].
  eapply pynum_leb_trans; [apply rescan_closer|apply better_closer_than_num].
Qed.

Lemma rescan_origin (best : pynum) (pop : list Z) :
  rescan self best pop = best
  \/ exists num, num ∈ pop /\ rescan self best pop = Int num.
Proof.
  revert best. induction pop as [|num pop IH]; intros best; [left; reflexivity|].
  rewrite rescan_cons.
  destruct (IH (better self best num)) as [-> | (n & Hn & ->)].
  - destruct (better_cases self best num) as [[_ ->] | [_ ->]];
      [left; reflexivity|].
    right. exists num. split; [left | reflexivity].
  - right. exists n. split; [right; assumption | reflexivity].
Qed.

Lemma rescan_int (best : pynum) (pop : list Z) :
  pop <> [] -> exists b, rescan self best pop = Int b.
Proof.
  intros Hpop. destruct (rescan_origin best pop) as [Heq | (n & _ & ->)];
    [|eauto].
  destruct best as [b|]; [rewrite Heq; eauto|].
  destruct pop as [|num pop]; [congruence|].
  pose proof (rescan_closest Inf (num :: pop)) as Hall.
  rewrite Heq in Hall. inversion Hall as [|? ? Hnum _]. discriminate Hnum.
Qed.
End RescanClosest.

(** X21. After every generation of a run from construction the best
    estimate is an integer, no member of the new population is closer to
    the target than it, and it is a member of the new population or the
    best estimate of before. *)
Theorem best_is_closest_seen (desired size max_number cross : Z)
  (rnd : nat -> Z) (self : Params) (s0 s s' : NumberEvolver) :
  init desired size max_number cross rnd = Ok (self, s0) ->
  rtc (step self) s0 s ->
  step self s s' ->
  exists b,
    _best s' = Int b
    /\ (b ∈ _population s' \/ _best s = Int b)
    /\ Forall (fun num =>
                 Z.abs (desired_number self - b)
                 <= Z.abs (desired_number self - num)) (_population s').
Proof.
  intros Hinit Hrun Hstep.
  destruct (init_inv _ _ _ _ _ _ _ Hinit) as [Hwf Hinv0].
  pose proof (rtc_step_inv self s0 s Hwf Hinv0 Hrun) as Hinv.
  destruct Hstep as [rnd' s s' _ Hgen].
  pose proof (generation_inv self Hwf s Hinv rnd' s' Hgen) as [Hlen _ _ _].
  apply generation_inversion in Hgen as (_ & pop & _ & Hpop & _ & _ & Hb & _).
  rewrite Hpop in *. clear Hpop.
  destruct (rescan_int self (_best s) pop) as [b Hint].
  { destruct Hwf as [Hsize _ _]. destruct pop; [simpl in Hlen; lia|congruence]. }
  exists b. rewrite Hb, Hint. split; [reflexivity|]. split.
  - destruct (rescan_origin self (_best s) pop) as [Heq | (n & Hn & Heq)].
    + right. congruence.
    + left. rewrite Hint in Heq. injection Heq as ->. exact Hn.
  - pose proof (rescan_closest self (_best s) pop) as Hall.
    rewrite Hint in Hall. eapply Forall_impl; [exact Hall|].
    simpl. intros num Hnum. apply Z.leb_le in Hnum. exact Hnum.
Qed.

Lemma best_is_closest_seen_witness :
  exists b,
    _best sample.first = Int b
    /\ (b ∈ _population sample.first \/ _best sample.start = Int b)
    /\ Forall (fun num =>
                 Z.abs (desired_number sample.params - b)
                 <= Z.abs (desired_number sample.params - num))
              (_population sample.first).
Proof.
  apply (best_is_closest_seen 5 4 7 1 (fun i => Z.of_nat i * 3)
           sample.params sample.start sample.start sample.first);
    [reflexivity | apply rtc_refl | apply step_sample].
Defined.

(** ** Truncation selection *)

Section SortedOrder.
Variable key : Z -> pynum.

Lemma insert_by_Permutation (x : Z) (l : list Z) :
  insert_by key x l ≡ₚ x :: l.
Proof.
  induction l as [|y l IH]; simpl; [reflexivity|].
  destruct (pynum_ltb (key y) (key x)); [|reflexivity].
  rewrite IH. apply perm_swap.
Qed.

Lemma sorted_Permutation (l : list Z) : sorted l key ≡ₚ l.
Proof.
  induction l as [|x l IH]; simpl; [reflexivity|].
  rewrite insert_by_Permutation. fold (sorted l key). rewrite IH. reflexivity.
Qed.

Lemma insert_by_StronglySorted (x : Z) (l : list Z) :
  StronglySorted (key_le key) l ->
  StronglySorted (key_le key) (insert_by key x l).
Proof.
  induction 1 as [|y l Hl IH Hy]; simpl.
  - constructor; constructor.
  - destruct (pynum_ltb (key y) (key x)) eqn:E.
    + constructor; [exact IH|].
      apply Forall_insert_by; [|exact Hy].
      unfold key_le. destruct (pynum_leb (key y) (key x)) eqn:E'; [reflexivity|].
      apply pynum_leb_false in E'.
      destruct (key x), (key y); simpl in *; try congruence.
      rewrite Z.ltb_lt in *. lia.
    + assert (key_le key x y) as Hxy by (apply pynum_leb_true; exact E).
      constructor; [constructor; assumption|].
      constructor; [exact Hxy|].
      eapply Forall_impl; [exact Hy|]. simpl. intros z Hyz.
      exact (pynum_leb_trans _ _ _ Hxy Hyz).
Qed.

Lemma sorted_StronglySorted (l : list Z) :
  StronglySorted (key_le key) (sorted l key).
Proof.
  induction l as [|x l IH]; simpl; [constructor|].
  apply insert_by_StronglySorted. exact IH.
Qed.

Lemma sorted_equal_keys (l : list Z) :
  (forall x, key x = Inf) -> sorted l key = l.
Proof.
  intros Hkey. induction l as [|x l IH]; simpl; [reflexivity|].
  fold (sorted l key). rewrite IH. destruct l as [|y l]; [reflexivity|].
  simpl. rewrite (Hkey y). reflexivity.
Qed.
End SortedOrder.

Lemma slice_to_take {A : Type} (l : list A) (k : Z) :
  exists n, slice_to l k = take n l.
Proof. unfold slice_to. destruct (k <? 0); eauto. Qed.

(** X22. In every state a run reaches from construction the breeding
    pool has [max(population_size // 4, 2)] members, never more than the
    population has. *)
Theorem breeding_pool_size (desired size max_number cross : Z)
  (rnd : nat -> Z) (self : Params) (s0 s : NumberEvolver) :
  init desired size max_number cross rnd = Ok (self, s0) ->
  rtc (step self) s0 s ->
  Z.of_nat (length (breeding_pool self s)) = Z.max (Z.max size 2 / 4) 2
  /\ (length (breeding_pool self s) <= length (_population s))%nat.
Proof.
  intros Hinit Hrun.
  destruct (init_inv _ _ _ _ _ _ _ Hinit) as [Hwf Hinv0].
  destruct (rtc_step_inv self s0 s Hwf Hinv0 Hrun) as [Hlen _ _ _].
  apply init_fields in Hinit as [_ ->]. simpl in *.
  unfold breeding_pool. simpl.
  rewrite length_slice_to by lia. rewrite length_sorted, Hlen.
  assert (Z.max size 2 / 4 <= Z.max size 2)
    by (apply Z.div_le_upper_bound; lia).
  lia.
Qed.

Lemma breeding_pool_size_witness :
  Z.of_nat (length (breeding_pool sample.params sample.first))
  = Z.max (Z.max 4 2 / 4) 2
  /\ (length (breeding_pool sample.params sample.first)
      <= length (_population sample.first))%nat.
Proof.
  apply (breeding_pool_size 5 4 7 1 (fun i => Z.of_nat i * 3)
           sample.params sample.start sample.first);
    [reflexivity | apply rtc_once, step_sample].
Defined.

(** X23. Truncation selection keeps the members closest to the best
    estimate: the pool and the members left out make up the population,
    and no member left out is closer to the best estimate than a pool
    member. *)
Theorem breeding_pool_closest (self : Params) (s : NumberEvolver) :
  exists rest,
    breeding_pool self s ++ rest ≡ₚ _population s
    /\ forall x y,
         x ∈ breeding_pool self s -> y ∈ rest ->
         pynum_leb (abs_diff x (_best s)) (abs_diff y (_best s)) = true.
Proof.
  unfold breeding_pool.
  set (key := fun x => abs_diff x (_best s)).
  destruct (slice_to_take (sorted (_population s) key)
              (Z.max (population_size self / 4) 2)) as [n ->].
  exists (drop n (sorted (_population s) key)). split.
  - rewrite take_drop. apply sorted_Permutation.
  - intros x y Hx Hy.
    pose proof (sorted_StronglySorted key (_population s)) as Hsorted.
    rewrite <- (take_drop n (sorted (_population s) key)) in Hsorted.
    exact (StronglySorted_app_1_elem_of _ _ _ x y Hsorted Hx Hy).
Qed.

(** X24. While the best estimate is still [math.inf], every member is
    infinitely far from it and the stable sort changes nothing: the pool
    of the first generation is the head of the starting population, in
    its order. *)
Theorem first_breeding_pool (self : Params) (s : NumberEvolver) :
  _best s = Inf ->
  breeding_pool self s
  = take (Z.to_nat (Z.max (population_size self / 4) 2)) (_population s).
Proof.
  intros Hbest. unfold breeding_pool, slice_to.
  destruct (Z.ltb_spec (Z.max (population_size self / 4) 2) 0); [lia|].
  rewrite sorted_equal_keys; [reflexivity|].
  intros x. rewrite Hbest. reflexivity.
Qed.

Lemma first_breeding_pool_witness :
  breeding_pool sample.params sample.start
  = take (Z.to_nat (Z.max (population_size sample.params / 4) 2))
         (_population sample.start).
Proof. apply (first_breeding_pool sample.params sample.start). reflexivity. Defined.

(** ** The breeding loop *)

(** X25. The matings of one generation reorder the pool without
    changing its members, and each of them appends exactly one child. *)
Theorem breed_keeps_pool (self : Params) (best : pynum) (rnd : nat -> Draw)
  (idx : list nat) (pool new_pop pool' new_pop' : list Z) :
  breed self best rnd idx pool new_pop = Ok (pool', new_pop') ->
  pool' ≡ₚ pool
  /\ exists children,
      new_pop' = new_pop ++ children /\ length children = length idx.
Proof.
  revert pool new_pop.
  induction idx as [|i idx IH]; intros pool new_pop H; simpl in H.
  - injection H as <- <-. split; [reflexivity|].
    exists []. rewrite app_nil_r. auto.
  - apply rbind_ok in H as ([pool1 child] & Hmate & H).
    apply mate_inversion in Hmate as [-> _].
    apply IH in H as (Hperm & children & -> & Hlen). split.
    + rewrite Hperm. apply shuffle_from_Permutation.
    + exists (child :: children). rewrite <- app_assoc. simpl.
      split; [reflexivity | lia].
Qed.

Lemma breed_keeps_pool_witness :
  exists pool' new_pop',
    breed sample.params Inf sample.draw [0%nat; 1%nat] [0; 3] []
    = Ok (pool', new_pop')
    /\ pool' ≡ₚ [0; 3]
    /\ exists children,
        new_pop' = [] ++ children /\ length children = 2%nat.
Proof.
  eexists. eexists. split; [vm_compute; reflexivity|].
  apply (breed_keeps_pool sample.params Inf sample.draw [0%nat; 1%nat]
           [0; 3] []).
  vm_compute. reflexivity.
Defined.

(** ** Crossover and mutation, position by position *)

Lemma cross_loop_lookup (cross : Z) (js male female male' female' : list Z) :
  0 <= cross -> Forall (fun j => 0 <= j) js -> NoDup js ->
  cross_loop cross js male female = Ok (male', female') ->
  forall k : nat,
    (Z.of_nat k - cross ∈ js ->
     male' !! k = female !! k /\ female' !! k = male !! k)
    /\ (Z.of_nat k - cross ∉ js ->
        male' !! k = male !! k /\ female' !! k = female !! k).
Proof.
  intros Hcross. revert male female.
  induction js as [|j js IH]; intros male female Hjs Hnd H k; simpl in H.
  - injection H as <- <-. split; [|auto].
    intros Hk. apply elem_of_nil in Hk. contradiction.
  - apply Forall_cons in Hjs as [Hj Hjs]. apply NoDup_cons in Hnd as [Hnj Hnd].
    apply rbind_ok in H as (f & Hf & H). apply rbind_ok in H as (m & Hm & H).
    apply rbind_ok in H as (male1 & Hm1 & H).
    apply rbind_ok in H as (female1 & Hf1 & H).
    apply getitem_inv in Hf as [Rf Hf]. apply getitem_inv in Hm as [Rm Hm].
    apply setitem_inv in Hm1 as [_ ->]. apply setitem_inv in Hf1 as [_ ->].
    apply in_range_lt in Rf, Rm.
    rewrite (norm_index_nonneg male) in * by lia.
    rewrite (norm_index_nonneg female) in * by lia.
    destruct (IH _ _ Hjs Hnd H k) as [Hin Hout].
    destruct (Z.eq_dec (Z.of_nat k - cross) j) as [Hkj | Hkj].
    + assert (k = Z.to_nat (cross + j)) as -> by lia.
      split; [|intros Hno; exfalso; apply Hno, elem_of_cons; left; exact Hkj].
      intros _. rewrite Hkj in Hout. destruct (Hout Hnj) as [-> ->].
      rewrite !list_lookup_insert_eq by assumption.
      rewrite Hf, Hm. auto.
    + assert (Z.to_nat (cross + j) <> k) as Hne by lia.
      split.
      * intros Hk. apply elem_of_cons in Hk as [Hk | Hk]; [contradiction|].
        destruct (Hin Hk) as [-> ->].
        rewrite !list_lookup_insert_ne by assumption. auto.
      * intros Hk. rewrite not_elem_of_cons in Hk. destruct Hk as [_ Hk].
        destruct (Hout Hk) as [-> ->].
        rewrite !list_lookup_insert_ne by assumption. auto.
Qed.

Lemma elem_of_range (n x : Z) : x ∈ range n <-> 0 <= x < n.
Proof.
  unfold range. split.
  - intros Hx. apply list_elem_of_fmap in Hx as (k & -> & Hk).
    apply elem_of_seq in Hk. lia.
  - intros Hx. apply list_elem_of_fmap. exists (Z.to_nat x).
    split; [lia|]. apply elem_of_seq. lia.
Qed.

Lemma NoDup_range (n : Z) : NoDup (range n).
Proof.
  unfold range. apply (NoDup_fmap_2 Z.of_nat). apply NoDup_seq.
Qed.

(** X26. Crossover from a point [cross >= 0] exchanges the digits of
    the two parents at the positions [cross, ..., cross + cross_range - 1]
    and leaves every other position as it was. *)
Theorem cross_loop_swaps_block
  (cross n : Z) (male female male' female' : list Z) :
  0 <= cross ->
  cross_loop cross (range n) male female = Ok (male', female') ->
  forall k : nat,
    (cross <= Z.of_nat k < cross + n ->
     male' !! k = female !! k /\ female' !! k = male !! k)
    /\ (~ (cross <= Z.of_nat k < cross + n) ->
        male' !! k = male !! k /\ female' !! k = female !! k).
Proof.
  intros Hcross H k.
  destruct (cross_loop_lookup cross (range n) male female male' female'
              Hcross) with (k := k) as [Hin Hout]; try assumption.
  - eapply Forall_impl; [apply range_bounds|]. simpl. lia.
  - apply NoDup_range.
  - split.
    + intros Hk. apply Hin, elem_of_range. lia.
    + intros Hk. apply Hout. rewrite elem_of_range. lia.
Qed.

Lemma cross_loop_swaps_block_witness :
  cross_loop 1 (range 2) [1; 0; 1; 1] [0; 1; 0; 0]
  = Ok ([1; 1; 0; 1], [0; 0; 1; 0])
  /\ [1; 1; 0; 1] !! 2%nat = [0; 1; 0; 0] !! 2%nat.
Proof.
  split; [reflexivity|].
  apply (cross_loop_swaps_block 1 2 [1; 0; 1; 1] [0; 1; 0; 0]
           [1; 1; 0; 1] [0; 0; 1; 0]); [lia | reflexivity | simpl; lia].
Defined.

(** X27. A mutation at position [mutation_id >= 0] moves the decoded
    value by [2 ^ mutation_id]: up when the digit there was 0, down when
    it was 1. *)
Theorem flip_changes_value (bits bits' : list Z) (mutation_id : Z) :
  0 <= mutation_id ->
  flip bits mutation_id = Ok bits' ->
  exists b,
    getitem bits mutation_id = Ok b
    /\ util.bin_to_dec bits'
       = util.bin_to_dec bits + (1 - 2 * b) * 2 ^ mutation_id.
Proof.
  intros Hid H. unfold flip in H.
  apply rbind_ok in H as (b & Hget & H). exists b. split; [exact Hget|].
  apply getitem_inv in Hget as [Hr Hb]. apply setitem_inv in H as [_ ->].
  apply in_range_lt in Hr. rewrite norm_index_nonneg in * by lia.
  rewrite insert_take_drop by assumption.
  rewrite <- (take_drop_middle bits _ b Hb) at 3.
  rewrite !bin_to_dec_app_sum, !bin_to_dec_cons.
  rewrite length_take, Nat.min_l by lia.
  rewrite Z2Nat.id by lia. ring.
Qed.

Lemma flip_changes_value_witness :
  exists b,
    getitem [1; 0; 1] 1 = Ok b
    /\ util.bin_to_dec [1; 1; 1]
       = util.bin_to_dec [1; 0; 1] + (1 - 2 * b) * 2 ^ 1.
Proof.
  apply (flip_changes_value [1; 0; 1] [1; 1; 1] 1); [lia | reflexivity].
Defined.

(** * Properties of [loop.py] *)

(** ** The evolver of [Loop.run] *)

Lemma byte_is_printable : 255 < 10 ^ int_max_str_digits.
Proof. reflexivity. Qed.

(** X28. The evolver [Loop.run] constructs is constructed without
    raising, whatever the arguments are: its target is the argument
    clamped into [[0, 255]] and its bit width is 8. In every state a run
    reaches, every member of every logged population lies in [[0, 255]]
    and is drawn at a level of the band [[200, 600]]. *)
Theorem run_evolver_safe (desired size cross : Z) (rnd0 : nat -> Z) :
  exists self s0,
    loop.run_evolver desired size cross rnd0 = Ok (self, s0)
    /\ desired_number self = Z.min (Z.max desired 0) 255
    /\ 0 <= desired_number self <= 255
    /\ max_bits self = 8
    /\ forall s,
         rtc (step self) s0 s ->
         Forall (fun r =>
                   Forall (fun num =>
                             0 <= num <= 255
                             /\ exists q : Q,
                                 loop.level num = Ok q
                                 /\ (inject_Z 200 <= q <= inject_Z 600)%Q)
                          (population r)) (_history s).
Proof.
  unfold loop.run_evolver.
  destruct (init_ok (Z.min (Z.max desired 0) 255) size 255 cross rnd0)
    as (self & s0 & Hinit); [split; [lia | exact byte_is_printable]|].
  pose proof (init_fields _ _ _ _ _ _ _ Hinit) as [_ Hself].
  assert (max_bits self = 8) as Hbits by (rewrite Hself; reflexivity).
  exists self, s0. split; [exact Hinit|].
  split; [rewrite Hself; simpl; lia|].
  split; [rewrite Hself; simpl; lia|].
  split; [exact Hbits|]. intros s Hrun.
  assert (255 < 2 ^ max_bits self) as Hlt by (rewrite Hbits; reflexivity).
  destruct (reachable_fits_all _ _ _ _ _ _ _ _ Hinit Hlt Hrun)
    as (_ & _ & Hh).
  eapply Forall_impl; [exact Hh|]. simpl. intros r Hr.
  eapply Forall_impl; [exact Hr|]. simpl. intros num Hnum.
  unfold fits in Hnum. rewrite Hbits in Hnum.
  change (2 ^ 8) with 256 in Hnum. split; [lia|].
  apply (calc_level_band num 256 200 600); lia.
Qed.

(** ** Panning with the mouse *)

Lemma handle_events_cons (self : loop.Loop) (e : loop.Event)
  (events : list loop.Event) :
  loop.handle_events self (e :: events)
  = loop.handle_events (loop.handle_event self e) events.
Proof. reflexivity. Qed.

Lemma handle_events_app (self : loop.Loop) (events events' : list loop.Event) :
  loop.handle_events self (events ++ events')
  = loop.handle_events (loop.handle_events self events) events'.
Proof. apply fold_left_app. Qed.

Lemma last_cons_default {A : Type} (p d : A) (ps : list A) :
  List.last (p :: ps) d = List.last ps p.
Proof.
  revert p d. induction ps as [|q ps IH]; intros p d; [reflexivity|].
  change (List.last (p :: q :: ps) d) with (List.last (q :: ps) d).
  rewrite (IH q d), (IH q p). reflexivity.
Qed.

Lemma handle_motions_dragging (ps : list (Z * Z)) (self : loop.Loop) :
  loop._dragging self = true ->
  loop.handle_events self (map loop.MOUSEMOTION ps)
  = {| loop._offset :=
         (fst (loop._offset self)
          + (fst (List.last ps (loop._cursor self))
             - fst (loop._cursor self)),
          snd (loop._offset self)
          + (snd (List.last ps (loop._cursor self))
             - snd (loop._cursor self)));
       loop._cursor := List.last ps (loop._cursor self);
       loop._dragging := true;
       loop._running := loop._running self |}.
Proof.
  revert self. induction ps as [|p ps IH]; intros [[o0 o1] [c0 c1] dr rn] Hd;
    simpl in Hd; subst dr.
  - simpl. f_equal. f_equal; lia.
  - change (loop.handle_events _ (map loop.MOUSEMOTION (p :: ps)))
      with (loop.handle_events
              {| loop._offset := (o0 + (fst p - c0), o1 + (snd p - c1));
                 loop._cursor := p;
                 loop._dragging := true;
                 loop._running := rn |}
              (map loop.MOUSEMOTION ps)).
    rewrite IH by reflexivity. rewrite !last_cons_default.
    cbn [loop._offset loop._cursor loop._running fst snd].
    f_equal. f_equal; lia.
Qed.

(** X29. A click-drag pans the scene by the way of the cursor: with no
    drag under way, a button press at [p0], motions, and a button
    release at [p1] move the offset by the last motion position minus
    [p0], leave the cursor at [p1] and end the drag. *)
Theorem drag_pans_by_displacement (self : loop.Loop)
  (p0 p1 : Z * Z) (ps : list (Z * Z)) :
  loop._dragging self = false ->
  loop.handle_events self
    (loop.MOUSEBUTTONDOWN p0 :: map loop.MOUSEMOTION ps
     ++ [loop.MOUSEBUTTONUP p1])
  = {| loop._offset :=
         (fst (loop._offset self) + (fst (List.last ps p0) - fst p0),
          snd (loop._offset self) + (snd (List.last ps p0) - snd p0));
       loop._cursor := p1;
       loop._dragging := false;
       loop._running := loop._running self |}.
Proof.
  intros Hd. rewrite handle_events_cons, handle_events_app.
  rewrite handle_motions_dragging by (simpl; rewrite Hd; reflexivity).
  reflexivity.
Qed.

Lemma drag_pans_by_displacement_witness :
  loop.handle_events
    {| loop._offset := (0, 0); loop._cursor := (0, 0);
       loop._dragging := false; loop._running := true |}
    (loop.MOUSEBUTTONDOWN (10, 20)
     :: map loop.MOUSEMOTION [(12, 25); (40, 18)]
     ++ [loop.MOUSEBUTTONUP (41, 18)])
  = {| loop._offset := (30, -2); loop._cursor := (41, 18);
       loop._dragging := false; loop._running := true |}.
Proof.
  apply (drag_pans_by_displacement
           {| loop._offset := (0, 0); loop._cursor := (0, 0);
              loop._dragging := false; loop._running := true |}
           (10, 20) (41, 18) [(12, 25); (40, 18)]).
  reflexivity.
Defined.

(** ** Closing the window *)

(** X30. After a batch of events the loop is still running exactly
    when it was running before and the batch holds no [QUIT]: no event
    turns a stopped loop back on. *)
Theorem running_until_quit (self : loop.Loop) (events : list loop.Event) :
  loop._running (loop.handle_events self events) = true
  <-> loop._running self = true /\ loop.QUIT ∉ events.
Proof.
  revert self. induction events as [|e events IH]; intros self.
  - simpl. split; [intros H; split; [exact H | apply not_elem_of_nil]|].
    intros [H _]. exact H.
  - rewrite handle_events_cons, IH, not_elem_of_cons.
    destruct e as [|pos|pos|pos|]; simpl.
    + split; [intros [H _]; discriminate H | intros [_ [H _]]; congruence].
    + split; [intros [H Hq]; repeat split; auto; discriminate | tauto].
    + split; [intros [H Hq]; repeat split; auto; discriminate | tauto].
    + destruct (loop._dragging self); simpl;
        (split; [intros [H Hq]; repeat split; auto; discriminate | tauto]).
    + split; [intros [H Hq]; repeat split; auto; discriminate | tauto].
Qed.

Lemma running_until_quit_witness :
  loop._running
    (loop.handle_events
       {| loop._offset := (0, 0); loop._cursor := (0, 0);
          loop._dragging := false; loop._running := true |}
       [loop.MOUSEMOTION (3, 4); loop.QUIT; loop.MOUSEBUTTONDOWN (5, 6)])
  = false.
Proof.
  destruct (loop._running
              (loop.handle_events
                 {| loop._offset := (0, 0); loop._cursor := (0, 0);
                    loop._dragging := false; loop._running := true |}
                 [loop.MOUSEMOTION (3, 4); loop.QUIT;
                  loop.MOUSEBUTTONDOWN (5, 6)])) eqn:E; [|reflexivity].
  apply (running_until_quit
           {| loop._offset := (0, 0); loop._cursor := (0, 0);
              loop._dragging := false; loop._running := true |}) in E
    as [_ Hq].
  exfalso. apply Hq. right. left.
Defined.
